(** * OrderedResources: the pool, its probe primitive and [locate]

    A shallow embedding of [interview/questions/1/ordered_resources.py].

    Python integers are [Z].  The pool object is a record of its four
    attributes.  Methods run in a small state-and-exception monad over a
    [World]: the object, what was printed on standard output, and a ghost
    history of the indices that were passed to [is_resource_free] (the
    Python object keeps no such history; it is only there so that the order
    of the probes can be stated).  An exception leaves the world as it was
    when it was raised, as in Python.

    The benchmark at the end of that module follows, then the mock server
    and the client of [interview/questions/2]: the server's handlers as
    functions of its registry, and the client's choice of endpoints and its
    lock and unlock loops run against those handlers. *)

From stdpp Require Import gmap list strings.
From Stdlib Require Import ZArith Lia.

Local Open Scope Z_scope.

(** ** Exceptions *)

Inductive exn : Type :=
  | NegativeSize          (* class NegativeSize(ValueError) *)
  | IndexOutOfBound       (* class IndexOutOfBound(ValueError) *)
  | TooManyProbes         (* class TooManyProbes(RuntimeError) *)
  | AllResourcesInUse     (* class AllResourcesInUse(Exception) *)
  | NotImplementedError   (* builtin, last statement of locate *)
  | ValueError            (* builtin, random.randint on an empty range *)
  | KeyError.             (* builtin, cache[i] on a missing key *)

(** ** The object and the world *)

Record OrderedResources : Type := mkOrderedResources {
  size : Z;
  _free_count : Z;
  _busy_count : Z;
  _first_available_resource : Z
}.

Record World : Type := mkWorld {
  self : OrderedResources;
  stdout : list Z;
  queried : list Z
}.

(** ** The monad *)

Definition M (A : Type) : Type := World -> (exn + A) * World.

Definition ret {A} (a : A) : M A := fun w => (inr a, w).

Definition raise {A} (e : exn) : M A := fun w => (inl e, w).

Definition bind {A B} (m : M A) (k : A -> M B) : M B :=
  fun w =>
    match m w with
    | (inl e, w') => (inl e, w')
    | (inr a, w') => k a w'
    end.

Notation "'let!' x ':=' m 'in' k" := (bind m (fun x => k))
  (at level 10, x name, m at level 100, k at level 200).
Notation "'do!' m 'in' k" := (bind m (fun _ => k))
  (at level 10, m at level 100, k at level 200).

Definition get_self : M OrderedResources := fun w => (inr (self w), w).

Definition put_self (o : OrderedResources) : M unit :=
  fun w => (inr tt, mkWorld o (stdout w) (queried w)).

Definition print (z : Z) : M unit :=
  fun w => (inr tt, mkWorld (self w) (stdout w ++ [z]) (queried w)).

Definition note_query (index : Z) : M unit :=
  fun w => (inr tt, mkWorld (self w) (stdout w) (queried w ++ [index])).

(** ** random.randint

    [random.randint a b] raises ValueError when the range [a..b] is empty
    and otherwise returns some integer of the range.  The generator's state
    is the explicit argument [entropy]; every integer of the range is drawn
    for some entropy. *)

Definition randint (a b entropy : Z) : exn + Z :=
  if b <? a then inl ValueError
  else inr (a + entropy mod (b - a + 1)).

(** ** OrderedResources.__init__ *)

Definition __init__ (size0 entropy : Z) : exn + World :=
  if size0 <? 0 then inl NegativeSize
  else
    match randint 0 (size0 - 1) entropy with
    | inl e => inl e
    | inr n =>
        inr (mkWorld
               {| size := size0;
                  _free_count := 0;
                  _busy_count := 0;
                  _first_available_resource := n |}
               [] [])
    end.

(** ** OrderedResources.is_resource_free *)

Definition is_resource_free (index : Z) : M bool :=
  do! note_query index in
  let! o := get_self in
  if size o <=? index then raise IndexOutOfBound
  else
    let is_free := _first_available_resource o <=? index in
    do! (if is_free then
           do! put_self {| size := size o;
                           _free_count := _free_count o + 1;
                           _busy_count := _busy_count o;
                           _first_available_resource :=
                             _first_available_resource o |} in
           let! o' := get_self in
           do! print (_free_count o') in
           if 2 <? _free_count o' then raise TooManyProbes else ret tt
         else
           put_self {| size := size o;
                       _free_count := _free_count o;
                       _busy_count := _busy_count o + 1;
                       _first_available_resource :=
                         _first_available_resource o |}) in
    ret is_free.

(** ** OrderedResources.locate *)

(** [range(n)] of Python: 0, 1, ..., n-1, empty when n <= 0. *)
Definition range (n : Z) : list Z := Z.of_nat <$> seq 0 (Z.to_nat n).

(** One pass through the body of the [for] loop.  The loop variables are
    the cache and the flag; [inl v] is [return v] out of the method. *)
Definition locate_body (i : Z) (cache : gmap Z bool) (free_resource_found : bool)
  : M (Z + gmap Z bool * bool) :=
  let! cache' := match cache !! i with
                  | None => let! b := is_resource_free i in
                            ret (<[i := b]> cache)
                  | Some _ => ret cache
                  end in
  let! c := match cache' !! i with
            | Some c => ret c
            | None => raise KeyError
            end in
  if (c : bool) then
    if free_resource_found then ret (inl (i - 1))
    else ret (inr (cache', true))
  else ret (inr (cache', false)).

Fixpoint locate_loop (indices : list Z) (cache : gmap Z bool)
    (free_resource_found : bool) : M (Z + gmap Z bool * bool) :=
  match indices with
  | [] => ret (inr (cache, free_resource_found))
  | i :: rest =>
      let! r := locate_body i cache free_resource_found in
      match r with
      | inl v => ret (inl v)
      | inr (cache', found') => locate_loop rest cache' found'
      end
  end.

Definition locate : M Z :=
  let! o := get_self in
  if size o =? 0 then raise AllResourcesInUse
  else
    let! r := locate_loop (range (size o)) ∅ false in
    match r with
    | inl v => ret v
    | inr (_, free_resource_found) =>
        if free_resource_found then
          let! o' := get_self in ret (size o' - 1)
        else
          do! (raise AllResourcesInUse : M unit) in
          raise NotImplementedError
    end.

(** A pool in the state the constructor leaves it in, with a chosen
    boundary. *)
Definition fresh (n boundary : Z) : World :=
  mkWorld {| size := n; _free_count := 0; _busy_count := 0;
             _first_available_resource := boundary |} [] [].

(** ** Worlds and closed forms used in the statements

    What one call of [is_resource_free] does to the world, case by case:
    an out-of-range call is only noted, a busy answer and a free answer
    each add one to their counter. *)

Definition noted (i : Z) (w : World) : World :=
  mkWorld (self w) (stdout w) (queried w ++ [i]).

Definition busy_tick (i : Z) (w : World) : World :=
  mkWorld {| size := size (self w);
             _free_count := _free_count (self w);
             _busy_count := _busy_count (self w) + 1;
             _first_available_resource := _first_available_resource (self w) |}
          (stdout w) (queried w ++ [i]).

Definition free_tick (i : Z) (w : World) : World :=
  mkWorld {| size := size (self w);
             _free_count := _free_count (self w) + 1;
             _busy_count := _busy_count (self w);
             _first_available_resource := _first_available_resource (self w) |}
          (stdout w ++ [_free_count (self w) + 1]) (queried w ++ [i]).

(** The world after [m] busy answers at the indices [k], [k+1], ... *)
Definition busy_run (k m : nat) (w : World) : World :=
  mkWorld {| size := size (self w);
             _free_count := _free_count (self w);
             _busy_count := _busy_count (self w) + Z.of_nat m;
             _first_available_resource := _first_available_resource (self w) |}
          (stdout w) (queried w ++ (Z.of_nat <$> seq k m)).

(** The number of calls of [is_resource_free] made so far. *)
Definition query_count (w : World) : Z := Z.of_nat (length (queried w)).

(** Scanning from the boundary [k] on, with [r] indices left in the pool:
    the first answer is free and raises the flag, the second one is free
    too and makes the method return the index before it.  Either of the two
    may be the third free answer of the pool's life, which raises. *)
Definition tail_spec (k r : nat) (cache : gmap Z bool) (w : World)
  : (exn + (Z + gmap Z bool * bool)) * World :=
  match r with
  | O => (inr (inr (cache, false)), w)
  | S r' =>
      let w2 := free_tick (Z.of_nat k) w in
      if 2 <? _free_count (self w2) then (inl TooManyProbes, w2)
      else
        match r' with
        | O => (inr (inr (<[Z.of_nat k := true]> cache, true)), w2)
        | S _ =>
            let w3 := free_tick (Z.of_nat (S k)) w2 in
            if 2 <? _free_count (self w3) then (inl TooManyProbes, w3)
            else (inr (inl (Z.of_nat k)), w3)
        end
  end.

(** The closed form of [locate] on a pool whose boundary [t] lies in
    [0..size]: [t] busy answers, then at most two free ones. *)
Definition locate_spec (w : World) : (exn + Z) * World :=
  let n := size (self w) in
  let t := _first_available_resource (self w) in
  if n =? 0 then (inl AllResourcesInUse, w)
  else
    let w1 := busy_run 0 (Z.to_nat t) w in
    if n <=? t then (inl AllResourcesInUse, w1)
    else
      let w2 := free_tick t w1 in
      if 2 <? _free_count (self w2) then (inl TooManyProbes, w2)
      else if n <=? t + 1 then (inr t, w2)
      else
        let w3 := free_tick (t + 1) w2 in
        if 2 <? _free_count (self w3) then (inl TooManyProbes, w3)
        else (inr t, w3).

(** Two states of one pool: neither method changes the size or the
    boundary. *)
Definition same_pool (w w' : World) : Prop :=
  size (self w') = size (self w) /\
  _first_available_resource (self w') = _first_available_resource (self w).

(** The exceptions that can come out of the loop of [locate]. *)
Definition probe_exn (e : exn) : Prop :=
  e = IndexOutOfBound \/ e = TooManyProbes \/ e = KeyError.

(** The world [locate] leaves behind on a fresh pool: [t] busy answers,
    [f] free ones (each printed), and the first [t + f] indices probed in
    increasing order. *)
Definition scanned (n t f : Z) : World :=
  mkWorld {| size := n; _free_count := f; _busy_count := t;
             _first_available_resource := t |}
          (Z.succ <$> range f) (range (t + f)).

(** A logarithmic bound on the work of [locate]: some constant c bounds
    the number of probes by c * (log2 n + 1) on every fresh pool. *)
Definition logarithmic_queries : Prop :=
  exists c : Z, forall n t : Z,
    0 <= t <= n ->
    query_count (snd (locate (fresh n t))) <= c * (Z.log2 n + 1).

(** ** The benchmark at the end of the module

    The [__main__] block: [ITERATIONS] times, build a pool of [POOL_SIZE]
    resources, run [locate] on it, compare the outcome with the pool's
    protected boundary and record the number of answered probes.  The two
    constants are arguments of [benchmark]; [__main__] is the benchmark at
    the values of the source.  The random generator is the stream [rng] of
    its draws: the constructor of iteration k consumes draw k. *)

Definition POOL_SIZE : Z := 100.
Definition ITERATIONS : Z := 100.

(** A float of the report, kept as the expression that makes it: the
    literal [0.0], or [total / count] on two integers. *)
Inductive pyfloat : Type :=
  | float_zero
  | true_div (total count : Z).

Record Report : Type := mkReport {
  minimum : Z;
  maximum : Z;
  average : pyfloat;
  correctness : bool
}.

(** One iteration of the loop.  The constructor is called outside the
    [try], so its exceptions end the benchmark; NotImplementedError is
    raised again; every other exception of [locate] is caught.  The result
    is the flag, the sample to append and what the probes printed. *)
Definition trial (pool_size entropy : Z) (correctness0 : bool)
  : exn + (bool * Z * list Z) :=
  match __init__ pool_size entropy with
  | inl e => inl e
  | inr pool0 =>
      let (outcome, pool) := locate pool0 in
      let o := self pool in
      let checked : exn + bool :=
        match outcome with
        | inl NotImplementedError => inl NotImplementedError
        | inl _ =>
            inr (if negb (size o =? _first_available_resource o) then false
                 else correctness0)
        | inr next_free =>
            let c := if size o =? _first_available_resource o then false
                     else correctness0 in
            inr (if negb (next_free =? _first_available_resource o) then false
                 else c)
        end in
      match checked with
      | inl e => inl e
      | inr c => inr (c, _busy_count o + _free_count o, stdout pool)
      end
  end.

Fixpoint trials (pool_size : Z) (rng : nat -> Z) (rounds : list nat)
    (sample : list Z) (correctness0 : bool) (out : list Z)
  : exn + (list Z * bool * list Z) :=
  match rounds with
  | [] => inr (sample, correctness0, out)
  | k :: rest =>
      match trial pool_size (rng k) correctness0 with
      | inl e => inl e
      | inr (c, probes, printed) =>
          trials pool_size rng rest (sample ++ [probes]) c (out ++ printed)
      end
  end.

(** [min], [max] and [sum] of Python on a list of integers; the first two
    are only called on a list that is not empty. *)
Definition py_min (x : Z) (xs : list Z) : Z := foldl Z.min x xs.
Definition py_max (x : Z) (xs : list Z) : Z := foldl Z.max x xs.
Definition py_sum (xs : list Z) : Z := foldl Z.add 0 xs.

(** The report that is printed last, and the lines the probes printed
    before it. *)
Definition benchmark (pool_size iterations : Z) (rng : nat -> Z)
  : exn + (Report * list Z) :=
  match trials pool_size rng (seq 0 (Z.to_nat iterations)) [] true [] with
  | inl e => inl e
  | inr (sample, correctness0, out) =>
      inr (match sample with
           | [] => {| minimum := 0; maximum := 0; average := float_zero;
                      correctness := correctness0 |}
           | x :: xs =>
               {| minimum := py_min x xs;
                  maximum := py_max x xs;
                  average := true_div (py_sum sample)
                                      (Z.of_nat (length sample));
                  correctness := correctness0 |}
           end, out)
  end.

Definition __main__ (rng : nat -> Z) : exn + (Report * list Z) :=
  benchmark POOL_SIZE ITERATIONS rng.



(** [w'] is a later state of the pool of [w]: same size and boundary, no
    counter lower, and the probes made in between are all below the size
    and each counted once, busy or free. *)
Definition later_state (w w' : World) : Prop :=
  same_pool w w'
  /\ _free_count (self w) <= _free_count (self w')
  /\ _busy_count (self w) <= _busy_count (self w')
  /\ exists probes : list Z,
       queried w' = queried w ++ probes
       /\ Forall (fun i => i < size (self w)) probes
       /\ _busy_count (self w') + _free_count (self w')
          = _busy_count (self w) + _free_count (self w)
            + Z.of_nat (length probes).

(** ** The mock server of the second question

    [interview/questions/2/app.py].  The handlers are functions of the
    global [REGISTRY], a dictionary from endpoint names to endpoints; one
    request is handled at a time.  A response is the JSON body with the
    status code.  [time.sleep] is left out. *)

Module App.

(** [threading.Lock]: the state of a lock is whether it is held. *)
Module Lock.
Definition t : Type := bool.

(** [Lock()] *)
Definition new : t := false.

(** [acquire(blocking=False)]: the answer and the lock afterwards. *)
Definition acquire_nonblocking (l : t) : bool * t :=
  if l then (false, l) else (true, true).

(** [release()]: [None] is the RuntimeError of an unlocked lock. *)
Definition release (l : t) : option t :=
  if l then Some false else None.

(** [locked()] *)
Definition locked (l : t) : bool := l.

(** The attribute [locked] when it is not called: a bound method, and
    the truth value of a method object is True. *)
Definition locked_attribute_truth (l : t) : bool := true.
End Lock.

(** The dataclass [Endpoint]; its field [lock] is [endpoint_lock] here,
    the handler of the same name keeps the name. *)
Record Endpoint : Type := mkEndpoint {
  resources : list Z;
  endpoint_lock : Lock.t
}.

Inductive json : Type :=
  | json_empty
  | json_error (message : string)
  | json_state (state : string)
  | json_registry (entries : gmap string (list Z * bool)).

Definition not_found (endpoint : string) : json * Z :=
  (json_error ("'" +:+ endpoint +:+ "' not found"), 404).

(** [GET /registry] *)
Definition registry (REGISTRY : gmap string Endpoint) : json * Z :=
  (json_registry
     ((fun endpoint => (resources endpoint, Lock.locked (endpoint_lock endpoint)))
        <$> REGISTRY),
   200).

(** [POST /<endpoint>/lock] *)
Definition lock (endpoint : string) (REGISTRY : gmap string Endpoint)
  : (json * Z) * gmap string Endpoint :=
  match REGISTRY !! endpoint with
  | None => (not_found endpoint, REGISTRY)
  | Some e =>
      let (acquired, l) := Lock.acquire_nonblocking (endpoint_lock e) in
      let REGISTRY' := <[endpoint := mkEndpoint (resources e) l]> REGISTRY in
      if negb acquired then
        ((json_error ("'" +:+ endpoint +:+ "' is already locked"), 403),
         REGISTRY')
      else ((json_empty, 200), REGISTRY')
  end.

(** [DELETE /<endpoint>/lock] *)
Definition unlock (endpoint : string) (REGISTRY : gmap string Endpoint)
  : (json * Z) * gmap string Endpoint :=
  match REGISTRY !! endpoint with
  | None => (not_found endpoint, REGISTRY)
  | Some e =>
      match Lock.release (endpoint_lock e) with
      | None =>
          ((json_error ("'" +:+ endpoint +:+ "' is already unlocked"), 403),
           REGISTRY)
      | Some l =>
          ((json_empty, 200), <[endpoint := mkEndpoint (resources e) l]> REGISTRY)
      end
  end.

(** [GET /<endpoint>/resource/<resource_id>].  [int] is Python's
    conversion of the path segment, [None] when it raises ValueError (the
    handler then fails with that exception); [uuid_hex] is the fresh
    [uuid.uuid4().hex]. *)
Definition get (int : string -> option Z) (uuid_hex : string)
    (endpoint resource_id : string) (REGISTRY : gmap string Endpoint)
  : exn + (json * Z) :=
  match REGISTRY !! endpoint with
  | None => inr (not_found endpoint)
  | Some e =>
      match int resource_id with
      | None => inl ValueError
      | Some id =>
          if negb (bool_decide (id ∈ resources e)) then
            inr (json_error ("'" +:+ endpoint +:+ "' does not expose resource '"
                             +:+ resource_id +:+ "'"), 404)
          else if negb (Lock.locked_attribute_truth (endpoint_lock e)) then
            inr (json_error ("'" +:+ endpoint
                             +:+ "' must be locked to access its state"), 403)
          else inr (json_state uuid_hex, 200)
      end
  end.

(** An endpoint with its lock put in state [held]. *)
Definition with_lock (held : bool) (e : Endpoint) : Endpoint :=
  mkEndpoint (resources e) held.

(** An answer of [lock] or [unlock] for [endpoint] that touched nothing
    but the lock of that endpoint: same resources everywhere, every other
    entry as before, and no change at all unless the status is 200. *)
Definition only_lock_changed (REGISTRY : gmap string Endpoint)
    (endpoint : string) (answer : (json * Z) * gmap string Endpoint) : Prop :=
  (forall k, resources <$> snd answer !! k = resources <$> REGISTRY !! k)
  /\ (forall k, k <> endpoint -> snd answer !! k = REGISTRY !! k)
  /\ (snd (fst answer) <> 200 -> snd answer = REGISTRY).

End App.

(** ** The client of the second question

    [interview/questions/2/client.py].  A [Dict[str, Endpoint]] is the list
    of its items in the order of the dictionary, which is the order
    [registry.items()] iterates in; endpoint names are strings and resource
    ids integers. *)

Module Client.

Record Endpoint : Type := mkEndpoint {
  resource_ids : list Z
}.

(** The inner loop of [_find_endpoints_for_resources]: go through the
    items of the registry; at the first endpoint that serves
    [resource_id] and is not in [endpoints] yet, append it and [break]. *)
Fixpoint find_endpoint (resource_id : Z) (items : list (string * Endpoint))
    (endpoints : list string) : list string :=
  match items with
  | [] => endpoints
  | (endpoint, endpoint_info) :: rest =>
      if bool_decide (resource_id ∈ resource_ids endpoint_info)
         && negb (bool_decide (endpoint ∈ endpoints))
      then endpoints ++ [endpoint]
      else find_endpoint resource_id rest endpoints
  end.

(** The outer loop, over the requested resource ids. *)
Fixpoint find_endpoints (registry : list (string * Endpoint))
    (requested : list Z) (endpoints : list string) : list string :=
  match requested with
  | [] => endpoints
  | resource_id :: rest =>
      find_endpoints registry rest (find_endpoint resource_id registry endpoints)
  end.

Definition _find_endpoints_for_resources (registry : list (string * Endpoint))
    (requested : list Z) : list string :=
  find_endpoints registry requested [].

(** [endpoint] is an item of the registry that serves [resource_id]. *)
Definition serves (registry : list (string * Endpoint)) (endpoint : string)
    (resource_id : Z) : Prop :=
  exists info, (endpoint, info) ∈ registry /\ resource_id ∈ resource_ids info.

(** *** Requests

    A request of the client is answered by the handler of the server, on
    the server's [REGISTRY]: the methods below run on that registry.  The
    transport and other clients are not modelled. *)

Inductive client_exn : Type :=
  | EndpointNotFound
  | EndpointAlreadyLocked
  | EndpointAlreadyUnlocked
  | ResourceNotFound
  | TryingToAccessResourceOnUnlockedEndpoint
  | AssertionError.

Definition C (A : Type) : Type :=
  gmap string App.Endpoint -> (client_exn + A) * gmap string App.Endpoint.

Definition _lock_endpoint (endpoint : string) : C unit :=
  fun REGISTRY =>
    let (response, REGISTRY') := App.lock endpoint REGISTRY in
    let status_code := snd response in
    if status_code =? 403 then (inl EndpointAlreadyLocked, REGISTRY')
    else if status_code =? 404 then (inl EndpointNotFound, REGISTRY')
    else if status_code =? 200 then (inr tt, REGISTRY')
    else (inl AssertionError, REGISTRY').

Definition _unlock_endpoint (endpoint : string) : C unit :=
  fun REGISTRY =>
    let (response, REGISTRY') := App.unlock endpoint REGISTRY in
    let status_code := snd response in
    if status_code =? 403 then (inl EndpointAlreadyUnlocked, REGISTRY')
    else if status_code =? 404 then (inl EndpointNotFound, REGISTRY')
    else if status_code =? 200 then (inr tt, REGISTRY')
    else (inl AssertionError, REGISTRY').

(** The loop of [_lock_endpoints]: EndpointAlreadyLocked is caught and the
    endpoint skipped, any other exception leaves the method. *)
Fixpoint lock_loop (endpoints locked_endpoints : list string)
  : C (list string) :=
  fun REGISTRY =>
    match endpoints with
    | [] => (inr locked_endpoints, REGISTRY)
    | endpoint :: rest =>
        match _lock_endpoint endpoint REGISTRY with
        | (inr _, REGISTRY') =>
            lock_loop rest (locked_endpoints ++ [endpoint]) REGISTRY'
        | (inl EndpointAlreadyLocked, REGISTRY') =>
            lock_loop rest locked_endpoints REGISTRY'
        | (inl e, REGISTRY') => (inl e, REGISTRY')
        end
    end.

Definition _lock_endpoints (endpoints : list string) : C (list string) :=
  lock_loop endpoints [].

(** [_unlock_endpoints]: EndpointAlreadyUnlocked is caught. *)
Fixpoint _unlock_endpoints (endpoints : list string) : C unit :=
  fun REGISTRY =>
    match endpoints with
    | [] => (inr tt, REGISTRY)
    | endpoint :: rest =>
        match _unlock_endpoint endpoint REGISTRY with
        | (inr _, REGISTRY') => _unlock_endpoints rest REGISTRY'
        | (inl EndpointAlreadyUnlocked, REGISTRY') =>
            _unlock_endpoints rest REGISTRY'
        | (inl e, REGISTRY') => (inl e, REGISTRY')
        end
    end.

(** The endpoint is in the registry and its lock is in state [held]. *)
Definition lock_state (REGISTRY : gmap string App.Endpoint)
    (endpoint : string) (held : bool) : Prop :=
  exists e, REGISTRY !! endpoint = Some e /\ App.endpoint_lock e = held.

(** The registry after locking the endpoints of [newly], all of them free
    before, read entry by entry. *)
Definition locked_view (REGISTRY R1 : gmap string App.Endpoint)
    (newly : list string) : Prop :=
  forall k, R1 !! k = if decide (k ∈ newly)
                      then App.with_lock true <$> REGISTRY !! k
                      else REGISTRY !! k.

End Client.


(** ** Runs on small pools *)

Example locate_8_5 :
  locate (fresh 8 5) = (inr 5, scanned 8 5 2).
Proof. reflexivity. Qed.

Example locate_3_2 :
  locate (fresh 3 2) = (inr 2, scanned 3 2 1).
Proof. reflexivity. Qed.

Example locate_3_3 :
  locate (fresh 3 3) = (inl AllResourcesInUse, scanned 3 3 0).
Proof. reflexivity. Qed.

(** A second search on the same pool needs a third free answer. *)
Example locate_twice_8_5 :
  fst (locate (snd (locate (fresh 8 5)))) = inl TooManyProbes
  /\ _free_count (self (snd (locate (snd (locate (fresh 8 5)))))) = 3.
Proof. split; reflexivity. Qed.

Example is_resource_free_out_of_range :
  fst (is_resource_free 8 (fresh 8 5)) = inl IndexOutOfBound.
Proof. reflexivity. Qed.

Example init_4_7 : __init__ 4 7 = inr (fresh 4 3).
Proof. reflexivity. Qed.

Example init_negative_size : __init__ (-1) 0 = inl NegativeSize.
Proof. reflexivity. Qed.

(** ** The probe primitive *)

Lemma is_resource_free_eq (i : Z) (w : World) :
  is_resource_free i w =
    if size (self w) <=? i then (inl IndexOutOfBound, noted i w)
    else if _first_available_resource (self w) <=? i then
      (if 2 <? _free_count (self w) + 1 then inl TooManyProbes else inr true,
       free_tick i w)
    else (inr false, busy_tick i w).
Proof.
  unfold is_resource_free, bind, note_query, get_self, put_self, print, raise, ret.
  cbn [self stdout queried size _free_count _busy_count _first_available_resource].
  destruct (size (self w) <=? i); [reflexivity|].
  destruct (_first_available_resource (self w) <=? i); [|reflexivity].
  cbn [self stdout queried size _free_count _busy_count _first_available_resource].
  destruct (2 <? _free_count (self w) + 1); reflexivity.
Qed.

(** ** The loop of [locate] *)

(** With [i] absent from the cache, the body probes [i] once and branches
    on the answer; the lookup [cache[i]] that follows cannot fail. *)
Lemma locate_body_miss (i : Z) (cache : gmap Z bool) (found : bool) (w : World) :
  cache !! i = None ->
  locate_body i cache found w =
    match is_resource_free i w with
    | (inl e, w') => (inl e, w')
    | (inr b, w') =>
        (inr (if b then if found then inl (i - 1)
                        else inr (<[i := b]> cache, true)
              else inr (<[i := b]> cache, false)), w')
    end.
Proof.
  intros Hmiss. unfold locate_body. rewrite Hmiss. unfold bind at 1 2.
  destruct (is_resource_free i w) as [[e|b] w']; [reflexivity|].
  unfold ret at 1. unfold bind. rewrite lookup_insert_eq. unfold ret.
  destruct b, found; reflexivity.
Qed.

Lemma locate_loop_app (l1 l2 : list Z) :
  forall (cache : gmap Z bool) (found : bool) (w : World),
    locate_loop (l1 ++ l2) cache found w =
      match locate_loop l1 cache found w with
      | (inr (inr (cache', found')), w') => locate_loop l2 cache' found' w'
      | other => other
      end.
Proof.
  induction l1 as [|i l1 IH]; intros cache found w; [reflexivity|].
  cbn [app locate_loop]. unfold bind.
  destruct (locate_body i cache found w) as [[e|[v|[cache' found']]] w'];
    try reflexivity.
  apply IH.
Qed.

Lemma busy_run_0 (k : nat) (w : World) : busy_run k 0 w = w.
Proof.
  destruct w as [[n f b t] out q]. unfold busy_run. cbn.
  rewrite Z.add_0_r, app_nil_r. reflexivity.
Qed.

Lemma busy_run_S (k m : nat) (w : World) :
  busy_run (S k) m (busy_tick (Z.of_nat k) w) = busy_run k (S m) w.
Proof.
  unfold busy_run, busy_tick. cbn [self stdout queried size _free_count
    _busy_count _first_available_resource seq fmap list_fmap].
  rewrite <- app_assoc. cbn [app]. do 2 f_equal. lia.
Qed.

(** Scanning [m] indices from [k] on, all of them below the boundary and
    inside the pool: every answer is busy, nothing is returned, the flag
    stays down and the cache still holds no index beyond the scan. *)
Lemma locate_loop_busy (m : nat) :
  forall (k : nat) (cache : gmap Z bool) (w : World),
    (forall j, Z.of_nat k <= j -> cache !! j = None) ->
    Z.of_nat (k + m) <= _first_available_resource (self w) ->
    Z.of_nat (k + m) <= size (self w) ->
    exists cache',
      locate_loop (Z.of_nat <$> seq k m) cache false w
        = (inr (inr (cache', false)), busy_run k m w)
      /\ (forall j, Z.of_nat (k + m) <= j -> cache' !! j = None).
Proof.
  induction m as [|m IH]; intros k cache w Hcache Ht Hn.
  - exists cache. split.
    + cbn. unfold ret. rewrite busy_run_0. reflexivity.
    + intros j Hj. apply Hcache. lia.
  - cbn [seq fmap list_fmap locate_loop]. unfold bind.
    rewrite locate_body_miss by (apply Hcache; lia).
    rewrite is_resource_free_eq.
    destruct (Z.leb_spec (size (self w)) (Z.of_nat k)) as [Hle|_]; [lia|].
    destruct (Z.leb_spec (_first_available_resource (self w)) (Z.of_nat k))
      as [Hle|_]; [lia|].
    destruct (IH (S k) (<[Z.of_nat k := false]> cache) (busy_tick (Z.of_nat k) w))
      as (cache' & Hrun & Hcache').
    + intros j Hj. rewrite lookup_insert_ne by lia. apply Hcache. lia.
    + cbn. lia.
    + cbn. lia.
    + exists cache'. split.
      * change (list_fmap nat Z Z.of_nat (seq (S k) m))
          with (Z.of_nat <$> seq (S k) m).
        rewrite Hrun, busy_run_S. reflexivity.
      * intros j Hj. apply Hcache'. lia.
Qed.

Lemma locate_loop_tail (k r : nat) (cache : gmap Z bool) (w : World) :
  (forall j, Z.of_nat k <= j -> cache !! j = None) ->
  _first_available_resource (self w) <= Z.of_nat k ->
  Z.of_nat (k + r) <= size (self w) ->
  locate_loop (Z.of_nat <$> seq k r) cache false w = tail_spec k r cache w.
Proof.
  intros Hcache Ht Hn. destruct r as [|r]; [reflexivity|].
  cbn [seq fmap list_fmap locate_loop tail_spec]. unfold bind.
  rewrite locate_body_miss by (apply Hcache; lia).
  rewrite is_resource_free_eq.
  destruct (Z.leb_spec (size (self w)) (Z.of_nat k)) as [Hle|_]; [lia|].
  destruct (Z.leb_spec (_first_available_resource (self w)) (Z.of_nat k))
    as [_|Hlt]; [|lia].
  cbn [free_tick self _free_count].
  destruct (2 <? _free_count (self w) + 1); [reflexivity|].
  destruct r as [|r]; [reflexivity|].
  cbn [seq fmap list_fmap locate_loop]. unfold bind.
  rewrite locate_body_miss
    by (rewrite lookup_insert_ne by lia; apply Hcache; lia).
  rewrite is_resource_free_eq.
  cbn [free_tick self size _first_available_resource _free_count].
  destruct (Z.leb_spec (size (self w)) (Z.of_nat (S k))) as [Hle|_]; [lia|].
  destruct (Z.leb_spec (_first_available_resource (self w)) (Z.of_nat (S k)))
    as [_|Hlt]; [|lia].
  destruct (2 <? _free_count (self w) + 1 + 1); [reflexivity|].
  unfold ret. do 3 f_equal. lia.
Qed.

(** ** What [locate] computes *)

Lemma locate_eq (w : World) :
  0 <= _first_available_resource (self w) <= size (self w) ->
  locate w = locate_spec w.
Proof.
  intros [Ht0 Htn]. unfold locate, locate_spec.
  remember (size (self w)) as n eqn:En.
  remember (_first_available_resource (self w)) as t eqn:Et.
  unfold bind at 1. unfold get_self at 1. rewrite <- En.
  destruct (Z.eqb_spec n 0) as [Hn0|Hn0]; [reflexivity|].
  unfold bind at 1. unfold range.
  replace (Z.to_nat n) with (Z.to_nat t + (Z.to_nat n - Z.to_nat t))%nat by lia.
  rewrite seq_app, fmap_app, locate_loop_app.
  destruct (locate_loop_busy (Z.to_nat t) 0 ∅ w) as (cache & Hrun & Hcache).
  - intros j _. apply lookup_empty.
  - lia.
  - lia.
  - rewrite Hrun. cbn [Nat.add] in *.
    rewrite locate_loop_tail;
      [|exact Hcache|cbn; lia|cbn; lia].
    unfold tail_spec.
    cbn [busy_run free_tick self size _free_count _first_available_resource].
    rewrite Nat2Z.inj_succ, !Z2Nat.id by lia.
    rewrite <- ?Et, <- ?En.
    destruct (Z.leb_spec n t) as [Hnt|Hnt].
    + replace (Z.to_nat n - Z.to_nat t)%nat with 0%nat by lia.
      reflexivity.
    + destruct (Z.to_nat n - Z.to_nat t)%nat as [|r] eqn:Hr; [lia|].
      destruct (2 <? _free_count (self w) + 1); [reflexivity|].
      destruct (Z.leb_spec n (t + 1)) as [Hn1|Hn1].
      * destruct r as [|r]; [|lia].
        unfold bind, get_self, ret. cbn [self size free_tick busy_run].
        do 2 f_equal. lia.
      * destruct r as [|r]; [lia|].
        unfold Z.succ.
        destruct (2 <? _free_count (self w) + 1 + 1); reflexivity.
Qed.

(** ** The pool is fixed *)

Lemma is_resource_free_same_pool (i : Z) (w : World) :
  same_pool w (snd (is_resource_free i w)).
Proof.
  rewrite is_resource_free_eq. unfold same_pool.
  destruct (size (self w) <=? i); [split; reflexivity|].
  destruct (_first_available_resource (self w) <=? i); split; reflexivity.
Qed.

(** ** Exceptions that the loop and [locate] can raise *)

Lemma is_resource_free_exn (i : Z) (w : World) (e : exn) :
  fst (is_resource_free i w) = inl e -> e = IndexOutOfBound \/ e = TooManyProbes.
Proof.
  rewrite is_resource_free_eq.
  destruct (size (self w) <=? i); cbn; [intros [= <-]; auto|].
  destruct (_first_available_resource (self w) <=? i); cbn; [|discriminate].
  destruct (2 <? _free_count (self w) + 1); [intros [= <-]; auto|discriminate].
Qed.

Lemma locate_body_exn (i : Z) (cache : gmap Z bool) (found : bool)
    (w : World) (e : exn) :
  fst (locate_body i cache found w) = inl e -> probe_exn e.
Proof.
  unfold locate_body, probe_exn. destruct (cache !! i) as [c|] eqn:Hc.
  - unfold bind, ret, raise. rewrite Hc. destruct c, found; discriminate.
  - unfold bind at 1 2.
    pose proof (is_resource_free_exn i w) as Hq.
    destruct (is_resource_free i w) as [[e'|b] w'].
    + cbn in *. intros [= <-]. destruct (Hq e' eq_refl); auto.
    + unfold ret at 1. unfold bind. rewrite lookup_insert_eq. unfold ret.
      destruct b, found; discriminate.
Qed.

Lemma locate_loop_exn (l : list Z) :
  forall (cache : gmap Z bool) (found : bool) (w : World) (e : exn),
    fst (locate_loop l cache found w) = inl e -> probe_exn e.
Proof.
  induction l as [|i l IH]; intros cache found w e; [discriminate|].
  cbn [locate_loop]. unfold bind.
  pose proof (locate_body_exn i cache found w) as Hb.
  destruct (locate_body i cache found w) as [[e'|[v|[cache' found']]] w'].
  - cbn in *. intros [= <-]. auto.
  - discriminate.
  - apply IH.
Qed.

Lemma locate_exn (w : World) (e : exn) :
  fst (locate w) = inl e -> e = AllResourcesInUse \/ probe_exn e.
Proof.
  unfold locate. unfold bind at 1. unfold get_self at 1.
  destruct (size (self w) =? 0); [cbn; intros [= <-]; auto|].
  unfold bind at 1.
  pose proof (locate_loop_exn (range (size (self w))) ∅ false w) as Hl.
  destruct (locate_loop (range (size (self w))) ∅ false w)
    as [[e'|[v|[cache' found']]] w'].
  - cbn in *. intros [= <-]. auto.
  - discriminate.
  - destruct found'; [discriminate|]. cbn. intros [= <-]. auto.
Qed.

(** ** The constructor *)

Lemma randint_range (a b entropy n : Z) :
  randint a b entropy = inr n -> a <= n <= b.
Proof.
  unfold randint. destruct (Z.ltb_spec b a); [discriminate|].
  intros [= <-]. pose proof (Z.mod_pos_bound entropy (b - a + 1)). lia.
Qed.

Lemma randint_any (a b n : Z) :
  a <= n <= b -> randint a b (n - a) = inr n.
Proof.
  intros H. unfold randint. destruct (Z.ltb_spec b a); [lia|].
  rewrite Z.mod_small by lia. f_equal. lia.
Qed.

Lemma init_negative (size0 entropy : Z) :
  __init__ size0 entropy = inl NegativeSize <-> size0 < 0.
Proof.
  unfold __init__, randint. destruct (Z.ltb_spec size0 0); [tauto|].
  destruct (size0 - 1 <? 0); split; (discriminate || lia).
Qed.

Lemma init_positive (size0 entropy : Z) :
  0 < size0 ->
  exists t, 0 <= t < size0 /\ __init__ size0 entropy = inr (fresh size0 t).
Proof.
  intros Hpos. unfold __init__.
  destruct (Z.ltb_spec size0 0); [lia|].
  destruct (randint 0 (size0 - 1) entropy) as [e|t] eqn:Hr.
  - unfold randint in Hr. destruct (Z.ltb_spec (size0 - 1) 0); [lia|discriminate].
  - exists t. split; [|reflexivity]. apply randint_range in Hr. lia.
Qed.

Lemma init_inv (size0 entropy : Z) (w : World) :
  __init__ size0 entropy = inr w ->
  exists t, 0 <= t < size0 /\ w = fresh size0 t.
Proof.
  unfold __init__. destruct (size0 <? 0); [discriminate|].
  destruct (randint 0 (size0 - 1) entropy) as [e|t] eqn:Hr; [discriminate|].
  intros [= <-]. exists t. split; [|reflexivity].
  apply randint_range in Hr. lia.
Qed.

(** ** Claims *)

(** C1. For every size >= 0 and every boundary in [0, size], [locate]
    either returns exactly the boundary (and then boundary < size), or
    raises AllResourcesInUse (and then boundary = size), or raises
    TooManyProbes; there is no other outcome.  The pool may have been
    probed before: the counters are arbitrary. *)
Theorem locate_outcome (w : World) :
  0 <= size (self w) ->
  0 <= _first_available_resource (self w) <= size (self w) ->
  (_first_available_resource (self w) < size (self w)
     /\ fst (locate w) = inr (_first_available_resource (self w)))
  \/ (_first_available_resource (self w) = size (self w)
     /\ fst (locate w) = inl AllResourcesInUse)
  \/ fst (locate w) = inl TooManyProbes.
Proof.
  intros Hn Ht. rewrite (locate_eq w Ht). unfold locate_spec.
  destruct (Z.eqb_spec (size (self w)) 0) as [H0|H0].
  { right. left. split; [lia|reflexivity]. }
  destruct (Z.leb_spec (size (self w)) (_first_available_resource (self w))).
  { right. left. split; [lia|reflexivity]. }
  destruct (2 <? _) ; [right; right; reflexivity|].
  destruct (_ <=? _); [left; split; [lia|reflexivity]|].
  destruct (2 <? _); [right; right; reflexivity|].
  left. split; [lia|reflexivity].
Qed.

Lemma locate_outcome_witness :
  (5 < 8 /\ fst (locate (fresh 8 5)) = inr 5)
  \/ (5 = 8 /\ fst (locate (fresh 8 5)) = inl AllResourcesInUse)
  \/ fst (locate (fresh 8 5)) = inl TooManyProbes.
Proof. apply (locate_outcome (fresh 8 5)); cbn; lia. Defined.

(** C2. [is_resource_free index] raises IndexOutOfBound when
    index >= size, charging nothing.  Otherwise it answers free exactly
    when index >= boundary and adds one to the counter of that answer; when
    the answer is free and two free answers were already counted, it raises
    TooManyProbes instead of returning, and the free counter has still
    been incremented. *)
Theorem is_resource_free_contract (index : Z) (w : World) :
  let o := self w in
  let r := fst (is_resource_free index w) in
  let o' := self (snd (is_resource_free index w)) in
  (size o <= index ->
     r = inl IndexOutOfBound /\ o' = o)
  /\ (index < size o -> index < _first_available_resource o ->
     r = inr false
     /\ _busy_count o' = _busy_count o + 1
     /\ _free_count o' = _free_count o)
  /\ (index < size o -> _first_available_resource o <= index ->
     _free_count o < 2 ->
     r = inr true
     /\ _free_count o' = _free_count o + 1
     /\ _busy_count o' = _busy_count o)
  /\ (index < size o -> _first_available_resource o <= index ->
     2 <= _free_count o ->
     r = inl TooManyProbes
     /\ _free_count o' = _free_count o + 1
     /\ _busy_count o' = _busy_count o).
Proof.
  cbv zeta. rewrite is_resource_free_eq.
  destruct (Z.leb_spec (size (self w)) index) as [Hn|Hn].
  { cbn. repeat split; intros; try lia. }
  destruct (Z.leb_spec (_first_available_resource (self w)) index) as [Ht|Ht].
  - destruct (Z.ltb_spec 2 (_free_count (self w) + 1)) as [Hf|Hf];
      cbn; repeat split; intros; try lia.
  - cbn. repeat split; intros; try lia.
Qed.

Lemma is_resource_free_contract_witness :
  fst (is_resource_free 5 (fresh 8 5)) = inr true
  /\ _free_count (self (snd (is_resource_free 5 (fresh 8 5)))) = 0 + 1
  /\ _busy_count (self (snd (is_resource_free 5 (fresh 8 5)))) = 0.
Proof.
  apply (proj1 (proj2 (proj2 (is_resource_free_contract 5 (fresh 8 5)))));
    cbn; lia.
Defined.

(** C3, as the code has it.  On a pool of size 0 [locate] raises
    AllResourcesInUse without calling [is_resource_free]: the world, with
    both counters and the history of probes, is left as it was.  This is
    the very exception a pool with no free resource gets. *)
Theorem locate_empty_pool (w : World) :
  size (self w) = 0 ->
  locate w = (inl AllResourcesInUse, w)
  /\ (forall w', 0 <= size (self w') ->
        _first_available_resource (self w') = size (self w') ->
        fst (locate w') = fst (locate w)).
Proof.
  intros H0.
  assert (He : locate w = (inl AllResourcesInUse, w)).
  { unfold locate, bind, get_self, raise. rewrite H0. reflexivity. }
  split; [exact He|].
  intros w' Hn Hfull. rewrite He, locate_eq by lia. unfold locate_spec.
  destruct (size (self w') =? 0); [reflexivity|].
  destruct (Z.leb_spec (size (self w')) (_first_available_resource (self w')));
    [reflexivity|lia].
Qed.

Lemma locate_empty_pool_witness :
  locate (fresh 0 0) = (inl AllResourcesInUse, fresh 0 0)
  /\ (forall w', 0 <= size (self w') ->
        _first_available_resource (self w') = size (self w') ->
        fst (locate w') = fst (locate (fresh 0 0))).
Proof. apply (locate_empty_pool (fresh 0 0)). reflexivity. Defined.

(** C3 as stated fails: the constructor does not accept size 0 (here with
    entropy 0), and on a pool object of size 0 [locate] gives the outcome
    it gives on a pool of size 1 with every resource busy, not an outcome
    of its own. *)
Lemma locate_empty_pool_not_distinct :
  __init__ 0 0 = inl ValueError
  /\ fst (locate (fresh 0 0)) = inl AllResourcesInUse
  /\ fst (locate (fresh 1 1)) = inl AllResourcesInUse.
Proof. repeat split. Qed.

(** C4, at the input where the code departs from it.  Size 0 passes the
    [size < 0] guard, and [random.randint 0 (-1)] then raises ValueError:
    the constructor fails, with an exception that is not NegativeSize. *)
Theorem init_size_zero_raises (entropy : Z) :
  __init__ 0 entropy = inl ValueError.
Proof. reflexivity. Qed.

(** ** [locate] on a pool that has not been probed yet *)

Lemma range_succ (n : Z) : 0 <= n -> range (n + 1) = range n ++ [n].
Proof.
  intros Hn. unfold range.
  replace (Z.to_nat (n + 1)) with (S (Z.to_nat n)) by lia.
  rewrite seq_S, fmap_app. cbn. rewrite Z2Nat.id by lia. reflexivity.
Qed.

Lemma range_length (n : Z) : 0 <= n -> Z.of_nat (length (range n)) = n.
Proof.
  intros Hn. unfold range. rewrite length_fmap, length_seq. lia.
Qed.

Lemma range_lookup (n : Z) (k : nat) :
  Z.of_nat k < n -> range n !! k = Some (Z.of_nat k).
Proof.
  intros Hk. unfold range. rewrite list_lookup_fmap, lookup_seq_lt by lia.
  reflexivity.
Qed.

Lemma locate_fresh (n t : Z) :
  0 <= t <= n ->
  locate (fresh n t) =
    if n =? t then (inl AllResourcesInUse, scanned n t 0)
    else if n =? t + 1 then (inr t, scanned n t 1)
    else (inr t, scanned n t 2).
Proof.
  intros Ht. rewrite locate_eq by (cbn; lia).
  unfold locate_spec, scanned, free_tick, busy_run, fresh.
  cbn [self size _free_count _busy_count _first_available_resource
       stdout queried app].
  change (Z.of_nat <$> seq 0 (Z.to_nat t)) with (range t).
  rewrite Z.add_0_r, Z.add_0_l, Z2Nat.id by lia.
  destruct (Z.eqb_spec n 0) as [Hn0|Hn0].
  { assert (t = 0) as -> by lia. subst n. reflexivity. }
  destruct (Z.leb_spec n t) as [Hnt|Hnt].
  { destruct (Z.eqb_spec n t); [|lia]. reflexivity. }
  destruct (Z.eqb_spec n t); [lia|].
  change (2 <? 0 + 1) with false. change (2 <? 0 + 1 + 1) with false. cbv iota.
  destruct (Z.leb_spec n (t + 1)) as [Hn1|Hn1].
  - destruct (Z.eqb_spec n (t + 1)); [|lia].
    rewrite range_succ by lia. reflexivity.
  - destruct (Z.eqb_spec n (t + 1)); [lia|].
    replace (t + 2) with (t + 1 + 1) by lia.
    rewrite !range_succ by lia. rewrite <- app_assoc. reflexivity.
Qed.

(** The number of probes on a fresh pool, and the sum of the counters. *)
Lemma locate_fresh_counts (n t : Z) :
  0 <= t <= n ->
  let w' := snd (locate (fresh n t)) in
  query_count w' = Z.min (t + 2) n
  /\ _busy_count (self w') + _free_count (self w') = Z.min (t + 2) n
  /\ queried w' = range (Z.min (t + 2) n).
Proof.
  intros Ht. cbv zeta. rewrite locate_fresh by exact Ht. unfold query_count.
  destruct (Z.eqb_spec n t) as [E|E]; [|destruct (Z.eqb_spec n (t + 1)) as [E1|E1]];
    cbn [snd scanned self queried _busy_count _free_count];
    rewrite range_length by lia;
    [ replace (Z.min (t + 2) n) with (t + 0) by lia
    | replace (Z.min (t + 2) n) with (t + 1) by lia
    | replace (Z.min (t + 2) n) with (t + 2) by lia ];
    repeat split.
Qed.

(** C5, as the code has it.  On a fresh pool of size n with boundary t in
    [0, n], [locate] calls [is_resource_free] exactly min (t + 2, n)
    times, which is also the sum of the two counters afterwards: t busy
    answers, then at most two free ones.  That is never more than n, and
    it is n itself as soon as t >= n - 1: linear in n. *)
Theorem locate_query_count (n t : Z) :
  0 <= t <= n ->
  let w' := snd (locate (fresh n t)) in
  query_count w' = Z.min (t + 2) n
  /\ _busy_count (self w') + _free_count (self w') = query_count w'
  /\ query_count w' <= n
  /\ (n - 1 <= t -> query_count w' = n).
Proof.
  intros Ht. cbv zeta.
  destruct (locate_fresh_counts n t Ht) as (Hq & Hsum & _).
  rewrite Hsum, Hq. repeat split; lia.
Qed.

Lemma locate_query_count_witness :
  let w' := snd (locate (fresh 100 99)) in
  query_count w' = Z.min (99 + 2) 100
  /\ _busy_count (self w') + _free_count (self w') = query_count w'
  /\ query_count w' <= 100
  /\ (100 - 1 <= 99 -> query_count w' = 100).
Proof. apply (locate_query_count 100 99). lia. Defined.

(** C5 as stated fails: a pool of 1024 resources with boundary 1023 costs
    1024 probes, and no constant gives a logarithmic bound. *)
Lemma locate_not_logarithmic :
  query_count (snd (locate (fresh 1024 1023))) = 1024
  /\ ~ logarithmic_queries.
Proof.
  split.
  { destruct (locate_fresh_counts 1024 1023) as (Hq & _); [lia|exact Hq]. }
  intros [c Hc].
  destruct (Z.le_gt_cases c 0) as [Hc0|Hc0].
  - specialize (Hc 1 0 ltac:(lia)).
    destruct (locate_fresh_counts 1 0) as (Hq & _); [lia|].
    rewrite Hq in Hc. change (Z.log2 1) with 0 in Hc. lia.
  - assert (Hpow : 2 * c < 2 ^ (2 * c)) by (apply Z.pow_gt_lin_r; lia).
    assert (Hsq : 2 ^ (4 * c) = 2 ^ (2 * c) * 2 ^ (2 * c)).
    { rewrite <- Z.pow_add_r by lia. f_equal. lia. }
    specialize (Hc (2 ^ (4 * c)) (2 ^ (4 * c)) ltac:(nia)).
    destruct (locate_fresh_counts (2 ^ (4 * c)) (2 ^ (4 * c))) as (Hq & _); [nia|].
    rewrite Hq, Z.log2_pow2 in Hc by lia. nia.
Qed.

(** C6, as the code has it.  [locate] scans linearly: on a fresh pool of
    size n with boundary t in [0, n] its probes are, in order, the indices
    0, 1, 2, 3, ... up to min (t + 2, n) - 1, one step at a time; t of
    them are answered busy and min (2, n - t) free, and the boundary is
    returned when t < n.  For size 8 and boundary 5 that is 0, 1, 2, 3, 4
    (busy), 5, 6 (free), answer 5 with 2 free observations. *)
Theorem locate_scans_linearly (n t : Z) :
  0 <= t <= n ->
  let w' := snd (locate (fresh n t)) in
  queried w' = range (Z.min (t + 2) n)
  /\ (forall k : nat, Z.of_nat k < Z.min (t + 2) n ->
        queried w' !! k = Some (Z.of_nat k))
  /\ _busy_count (self w') = t
  /\ _free_count (self w') = Z.min 2 (n - t)
  /\ (t < n -> fst (locate (fresh n t)) = inr t).
Proof.
  intros Ht. cbv zeta.
  destruct (locate_fresh_counts n t Ht) as (_ & _ & Hq).
  rewrite Hq. split; [reflexivity|]. split; [apply range_lookup|].
  rewrite locate_fresh by exact Ht.
  destruct (Z.eqb_spec n t); [|destruct (Z.eqb_spec n (t + 1))];
    cbn; repeat split; lia.
Qed.

Lemma locate_scans_linearly_witness :
  queried (snd (locate (fresh 8 5))) = [0; 1; 2; 3; 4; 5; 6]
  /\ _busy_count (self (snd (locate (fresh 8 5)))) = 5
  /\ _free_count (self (snd (locate (fresh 8 5)))) = 2
  /\ fst (locate (fresh 8 5)) = inr 5.
Proof.
  destruct (locate_scans_linearly 8 5) as (Hq & _ & Hb & Hf & Hr); [lia|].
  split; [exact Hq|]. split; [exact Hb|]. split; [exact Hf|]. apply Hr. lia.
Defined.

(** C6 as stated fails: for size 8 and boundary 5 the fourth probe is at
    index 3, not 4, and the probes are the seven consecutive indices. *)
Lemma locate_probes_index_3 :
  queried (snd (locate (fresh 8 5))) !! 3%nat = Some 3
  /\ queried (snd (locate (fresh 8 5))) = [0; 1; 2; 3; 4; 5; 6].
Proof. split; reflexivity. Qed.

(** C7. Classification is monotone.  Take two states [w] and [w'] of one
    pool (same size, same boundary; the counters may differ) and in-range
    indices i < j.  If the probe of i answers free in [w], the probe of j
    in [w'] is classified free too: it answers free, or raises
    TooManyProbes because the budget is spent, but never answers busy.
    Equivalently, every in-range index below the boundary is answered busy
    and every in-range index at or above it is classified free. *)
Theorem classification_monotone (w w' : World) (i j : Z) :
  same_pool w w' ->
  i < j ->
  j < size (self w) ->
  (fst (is_resource_free i w) = inr true ->
     (fst (is_resource_free j w') = inr true
      \/ fst (is_resource_free j w') = inl TooManyProbes)
     /\ fst (is_resource_free j w') <> inr false)
  /\ (forall k, k < size (self w) ->
        k < _first_available_resource (self w) ->
        fst (is_resource_free k w') = inr false)
  /\ (forall k, k < size (self w) ->
        _first_available_resource (self w) <= k ->
        fst (is_resource_free k w') = inr true
        \/ fst (is_resource_free k w') = inl TooManyProbes).
Proof.
  intros [Hsize Hbound] Hij Hj.
  assert (Hbusy : forall k, k < size (self w) ->
            k < _first_available_resource (self w) ->
            fst (is_resource_free k w') = inr false).
  { intros k Hk Hkt. rewrite is_resource_free_eq, Hsize, Hbound.
    destruct (Z.leb_spec (size (self w)) k); [lia|].
    destruct (Z.leb_spec (_first_available_resource (self w)) k); [lia|].
    reflexivity. }
  assert (Hfree : forall k, k < size (self w) ->
            _first_available_resource (self w) <= k ->
            fst (is_resource_free k w') = inr true
            \/ fst (is_resource_free k w') = inl TooManyProbes).
  { intros k Hk Hkt. rewrite is_resource_free_eq, Hsize, Hbound.
    destruct (Z.leb_spec (size (self w)) k); [lia|].
    destruct (Z.leb_spec (_first_available_resource (self w)) k); [|lia].
    cbn. destruct (2 <? _free_count (self w') + 1); auto. }
  split; [|split; assumption].
  intros Hi. rewrite is_resource_free_eq in Hi.
  destruct (Z.leb_spec (size (self w)) i); [discriminate Hi|].
  destruct (Z.leb_spec (_first_available_resource (self w)) i);
    [|discriminate Hi].
  assert (Hjt : _first_available_resource (self w) <= j) by lia.
  destruct (Hfree j Hj Hjt) as [Hres|Hres]; rewrite Hres; split; auto;
    discriminate.
Qed.

Lemma classification_monotone_witness :
  (fst (is_resource_free 5 (fresh 8 5)) = inr true ->
     (fst (is_resource_free 7 (snd (is_resource_free 5 (fresh 8 5)))) = inr true
      \/ fst (is_resource_free 7 (snd (is_resource_free 5 (fresh 8 5))))
         = inl TooManyProbes)
     /\ fst (is_resource_free 7 (snd (is_resource_free 5 (fresh 8 5))))
        <> inr false)
  /\ (forall k, k < 8 -> k < 5 ->
        fst (is_resource_free k (snd (is_resource_free 5 (fresh 8 5))))
        = inr false)
  /\ (forall k, k < 8 -> 5 <= k ->
        fst (is_resource_free k (snd (is_resource_free 5 (fresh 8 5))))
        = inr true
        \/ fst (is_resource_free k (snd (is_resource_free 5 (fresh 8 5))))
           = inl TooManyProbes).
Proof.
  apply (classification_monotone (fresh 8 5)
           (snd (is_resource_free 5 (fresh 8 5))) 5 7).
  - apply is_resource_free_same_pool.
  - lia.
  - vm_compute. reflexivity.
Defined.

(** Two probes of one in-range index, one right after the other: busy
    then busy; free then free, unless the second free answer is the one
    that exceeds the budget; TooManyProbes then TooManyProbes. *)
Lemma is_resource_free_twice (i : Z) (w : World) :
  i < size (self w) ->
  let r1 := fst (is_resource_free i w) in
  let r2 := fst (is_resource_free i (snd (is_resource_free i w))) in
  (r1 = inr false /\ r2 = inr false)
  \/ (r1 = inr true /\ (r2 = inr true \/ r2 = inl TooManyProbes))
  \/ (r1 = inl TooManyProbes /\ r2 = inl TooManyProbes).
Proof.
  intros Hi. cbv zeta. rewrite !is_resource_free_eq.
  destruct (Z.leb_spec (size (self w)) i) as [|_]; [lia|].
  destruct (Z.leb_spec (_first_available_resource (self w)) i) as [Ht|Ht].
  - cbn [snd fst free_tick self size _first_available_resource _free_count].
    destruct (Z.leb_spec (size (self w)) i) as [|_]; [lia|].
    destruct (Z.leb_spec (_first_available_resource (self w)) i) as [_|]; [|lia].
    cbn [fst].
    destruct (Z.ltb_spec 2 (_free_count (self w) + 1));
      destruct (Z.ltb_spec 2 (_free_count (self w) + 1 + 1)); auto; lia.
  - cbn [snd fst busy_tick self size _first_available_resource].
    destruct (Z.leb_spec (size (self w)) i) as [|_]; [lia|].
    destruct (Z.leb_spec (_first_available_resource (self w)) i) as [|_]; [lia|].
    auto.
Qed.

(** C8. Two probes of the same in-range index get the same classification,
    whatever happens to the pool in between.  [w] and [w'] are any two
    states of one pool (same size and boundary; the counters, the output
    and the history are free, so [w'] may follow [w] after any number of
    probes and searches, or precede it).  Either both probes answer busy,
    or both are classified free, each of them answering free or raising
    TooManyProbes.  The budget is the only difference: the probe in [w']
    raises exactly when the index is free and two free answers were
    already counted in [w'], so, the free counter never going down, a
    probe that raised TooManyProbes raises it again later. *)
Theorem is_resource_free_repeat (i : Z) (w w' : World) :
  same_pool w w' ->
  i < size (self w) ->
  let r1 := fst (is_resource_free i w) in
  let r2 := fst (is_resource_free i w') in
  ((r1 = inr false /\ r2 = inr false)
   \/ ((r1 = inr true \/ r1 = inl TooManyProbes)
       /\ (r2 = inr true \/ r2 = inl TooManyProbes)))
  /\ (r2 = inl TooManyProbes <->
      _first_available_resource (self w) <= i /\ 2 <= _free_count (self w'))
  /\ (_free_count (self w) <= _free_count (self w') ->
      r1 = inl TooManyProbes -> r2 = inl TooManyProbes).
Proof.
  intros [Hsize Hbound] Hi. cbv zeta. rewrite !is_resource_free_eq.
  rewrite Hsize, Hbound.
  destruct (Z.leb_spec (size (self w)) i) as [|_]; [lia|].
  destruct (Z.leb_spec (_first_available_resource (self w)) i) as [Ht|Ht];
    cbn [fst].
  - destruct (Z.ltb_spec 2 (_free_count (self w) + 1)) as [H1|H1];
      destruct (Z.ltb_spec 2 (_free_count (self w') + 1)) as [H2|H2];
      (split; [right; split; auto|]);
      (split; [split; [intros E; first [discriminate E|split; lia]
                      |intros [_ E]; first [reflexivity|lia]]|]);
      intros Hle E; first [reflexivity|discriminate E|lia].
  - split; [left; split; reflexivity|].
    split; [split; [discriminate|intros [E _]; lia]|discriminate].
Qed.

Lemma is_resource_free_repeat_witness :
  let w := fresh 8 5 in
  let w' := snd (is_resource_free 5 (snd (is_resource_free 4 w))) in
  let r1 := fst (is_resource_free 4 w) in
  let r2 := fst (is_resource_free 4 w') in
  ((r1 = inr false /\ r2 = inr false)
   \/ ((r1 = inr true \/ r1 = inl TooManyProbes)
       /\ (r2 = inr true \/ r2 = inl TooManyProbes)))
  /\ (r2 = inl TooManyProbes <->
      _first_available_resource (self w) <= 4 /\ 2 <= _free_count (self w'))
  /\ (_free_count (self w) <= _free_count (self w') ->
      r1 = inl TooManyProbes -> r2 = inl TooManyProbes).
Proof.
  apply (is_resource_free_repeat 4 (fresh 8 5)
           (snd (is_resource_free 5 (snd (is_resource_free 4 (fresh 8 5)))))).
  - split; reflexivity.
  - cbn. lia.
Defined.

(** C9. On a pool as the constructor makes it (so size >= 1 and boundary
    in [0, size - 1]) [locate] returns the boundary and never raises
    TooManyProbes: afterwards the free counter is 2 when
    boundary <= size - 2 and 1 when boundary = size - 1, and every value the
    guard [_free_count > 2] was evaluated on (each one is printed just
    before) is at most 2. *)
Theorem locate_within_budget (n entropy : Z) (w : World) :
  __init__ n entropy = inr w ->
  let t := _first_available_resource (self w) in
  let w' := snd (locate w) in
  1 <= n
  /\ size (self w) = n
  /\ 0 <= t <= n - 1
  /\ fst (locate w) = inr t
  /\ (t <= n - 2 -> _free_count (self w') = 2)
  /\ (t = n - 1 -> _free_count (self w') = 1)
  /\ Forall (fun c => c <= 2) (stdout w').
Proof.
  intros Hinit. destruct (init_inv n entropy w Hinit) as (t & Ht & ->).
  cbv zeta. cbn [fresh self size _first_available_resource].
  change (mkWorld {| size := n; _free_count := 0; _busy_count := 0;
                     _first_available_resource := t |} [] [])
    with (fresh n t).
  rewrite locate_fresh by lia.
  destruct (Z.eqb_spec n t); [lia|].
  destruct (Z.eqb_spec n (t + 1)); cbn;
    repeat split; try lia; repeat constructor; lia.
Qed.

Lemma locate_within_budget_witness :
  let w := fresh 4 3 in
  let t := _first_available_resource (self w) in
  let w' := snd (locate w) in
  1 <= 4
  /\ size (self w) = 4
  /\ 0 <= t <= 4 - 1
  /\ fst (locate w) = inr t
  /\ (t <= 4 - 2 -> _free_count (self w') = 2)
  /\ (t = 4 - 1 -> _free_count (self w') = 1)
  /\ Forall (fun c => c <= 2) (stdout w').
Proof. apply (locate_within_budget 4 7 (fresh 4 3)). reflexivity. Defined.

(** C10. The last statement of [locate], [raise NotImplementedError], is
    never reached: on every pool, in every state, [locate] returns an
    index or raises one of AllResourcesInUse, IndexOutOfBound,
    TooManyProbes and KeyError, hence not NotImplementedError. *)
Theorem locate_never_not_implemented (w : World) :
  ((exists v, fst (locate w) = inr v)
   \/ (exists e, fst (locate w) = inl e
         /\ (e = AllResourcesInUse \/ e = IndexOutOfBound
             \/ e = TooManyProbes \/ e = KeyError)))
  /\ fst (locate w) <> inl NotImplementedError.
Proof.
  pose proof (locate_exn w) as He. unfold probe_exn in He.
  destruct (fst (locate w)) as [e|v].
  - specialize (He e eq_refl). split.
    + right. exists e. split; [reflexivity|tauto].
    + intros [= ->]. destruct He as [|[|[|]]]; discriminate.
  - split; [left; exists v; reflexivity|discriminate].
Qed.

(** ** Invariants of [locate] on any pool, in any state *)

Lemma later_state_refl (w : World) : later_state w w.
Proof.
  unfold later_state, same_pool. repeat split; try lia.
  exists []. rewrite app_nil_r. repeat split; [constructor|cbn; lia].
Qed.

Lemma later_state_trans (w1 w2 w3 : World) :
  later_state w1 w2 -> later_state w2 w3 -> later_state w1 w3.
Proof.
  intros ([Hs1 Hb1] & Hf1 & Hu1 & l1 & Hq1 & Hl1 & Hc1)
         ([Hs2 Hb2] & Hf2 & Hu2 & l2 & Hq2 & Hl2 & Hc2).
  unfold later_state, same_pool. repeat split; try lia.
  exists (l1 ++ l2). repeat split.
  - rewrite Hq2, Hq1, app_assoc. reflexivity.
  - apply Forall_app. split; [exact Hl1|].
    rewrite Hs1 in Hl2. exact Hl2.
  - rewrite length_app. lia.
Qed.

(** An in-range probe: the pool moves to a later state, and the only
    exception is TooManyProbes. *)
Lemma is_resource_free_later (i : Z) (w : World) :
  i < size (self w) ->
  later_state w (snd (is_resource_free i w))
  /\ (forall e, fst (is_resource_free i w) = inl e -> e = TooManyProbes).
Proof.
  intros Hi. rewrite is_resource_free_eq.
  destruct (Z.leb_spec (size (self w)) i) as [|_]; [lia|].
  destruct (_first_available_resource (self w) <=? i).
  - split.
    + unfold later_state, same_pool. cbn. repeat split; try lia.
      exists [i]. repeat split; [repeat constructor; exact Hi|cbn; lia].
    + cbn. destruct (2 <? _); [intros e [= <-]; reflexivity|discriminate].
  - split; [|discriminate].
    unfold later_state, same_pool. cbn. repeat split; try lia.
    exists [i]. repeat split; [repeat constructor; exact Hi|cbn; lia].
Qed.

Lemma locate_body_later (i : Z) (cache : gmap Z bool) (found : bool)
    (w : World) :
  i < size (self w) ->
  later_state w (snd (locate_body i cache found w))
  /\ (forall e, fst (locate_body i cache found w) = inl e -> e = TooManyProbes).
Proof.
  intros Hi. destruct (cache !! i) as [c|] eqn:Hc.
  - unfold locate_body, bind, ret, raise. rewrite Hc. cbv beta iota.
    rewrite Hc.
    destruct c, found; cbn; (split; [apply later_state_refl|discriminate]).
  - rewrite locate_body_miss by exact Hc.
    destruct (is_resource_free_later i w Hi) as [Hl He].
    destruct (is_resource_free i w) as [[e|b] w']; cbn in *.
    + split; [exact Hl|]. intros e' [= <-]. apply He. reflexivity.
    + split; [exact Hl|discriminate].
Qed.

Lemma locate_loop_later (l : list Z) :
  forall (cache : gmap Z bool) (found : bool) (w : World),
    Forall (fun i => i < size (self w)) l ->
    later_state w (snd (locate_loop l cache found w))
    /\ (forall e, fst (locate_loop l cache found w) = inl e ->
          e = TooManyProbes).
Proof.
  induction l as [|i l IH]; intros cache found w Hl.
  - cbn. split; [apply later_state_refl|discriminate].
  - apply Forall_cons in Hl as [Hi Hl]. cbn [locate_loop]. unfold bind.
    destruct (locate_body_later i cache found w Hi) as [Hb He].
    destruct (locate_body i cache found w) as [[e|[v|[cache' found']]] w'];
      cbn [fst snd] in *.
    + split; [exact Hb|]. intros e' [= <-]. apply He. reflexivity.
    + split; [exact Hb|discriminate].
    + assert (Hl2 : Forall (fun i => i < size (self w')) l).
      { destruct Hb as ([Hs _] & _). rewrite Hs. exact Hl. }
      destruct (IH cache' found' w' Hl2) as [Hl' He'].
      split; [|exact He']. eapply later_state_trans; eassumption.
Qed.

Lemma range_below (n : Z) : Forall (fun i => i < n) (range n).
Proof.
  unfold range. apply Forall_fmap, Forall_forall. intros k Hk.
  apply elem_of_seq in Hk. cbn. lia.
Qed.

Lemma locate_later (w : World) :
  later_state w (snd (locate w))
  /\ ((exists v, fst (locate w) = inr v)
      \/ fst (locate w) = inl AllResourcesInUse
      \/ fst (locate w) = inl TooManyProbes).
Proof.
  unfold locate, bind, get_self, ret, raise.
  destruct (size (self w) =? 0).
  { split; [apply later_state_refl|right; left; reflexivity]. }
  destruct (locate_loop_later (range (size (self w))) ∅ false w
              (range_below _)) as [Hl He].
  destruct (locate_loop (range (size (self w))) ∅ false w)
    as [[e|[v|[cache' found']]] w']; cbn [fst snd] in *.
  - split; [exact Hl|]. right. right. rewrite (He e eq_refl). reflexivity.
  - split; [exact Hl|]. left. exists v. reflexivity.
  - destruct found'; cbn [fst snd]; (split; [exact Hl|]).
    + left. eexists. reflexivity.
    + right. left. reflexivity.
Qed.

(** Case analysis on every integer comparison of the goal. *)
Ltac compare_cases :=
  repeat match goal with
         | |- context [?a =? ?b] => destruct (Z.eqb_spec a b)
         | |- context [?a <=? ?b] => destruct (Z.leb_spec a b)
         | |- context [?a <? ?b] => destruct (Z.ltb_spec a b)
         end.

(** X1. Whatever the pool and its state, [locate] leaves the size and the
    boundary alone, lowers no counter, probes only indices below the size,
    and every probe it makes is counted once: busy + free grows by the
    number of probes. *)
Theorem locate_keeps_pool (w : World) :
  later_state w (snd (locate w)).
Proof. apply locate_later. Qed.

(** X2. Whatever the pool and its state, [locate] returns an index or
    raises AllResourcesInUse or TooManyProbes: its probes never raise
    IndexOutOfBound and its cache lookup never raises KeyError. *)
Theorem locate_raises_only (w : World) :
  (exists v, fst (locate w) = inr v)
  \/ fst (locate w) = inl AllResourcesInUse
  \/ fst (locate w) = inl TooManyProbes.
Proof. apply locate_later. Qed.

(** X3. A pool can be searched again only when the first search used one
    free answer.  After [locate] on a fresh pool with boundary
    t <= size - 2 a second [locate] raises TooManyProbes at its first free
    probe (free counter 3); with t = size - 1 the second search still
    returns t (free counter 2) and it is the third that raises. *)
Theorem locate_again (n t : Z) :
  0 <= t < n ->
  let w1 := snd (locate (fresh n t)) in
  let w2 := snd (locate w1) in
  (t <= n - 2 ->
     fst (locate w1) = inl TooManyProbes /\ _free_count (self w2) = 3)
  /\ (t = n - 1 ->
     fst (locate w1) = inr t
     /\ _free_count (self w2) = 2
     /\ fst (locate w2) = inl TooManyProbes).
Proof.
  intros Ht. cbv zeta. rewrite locate_fresh by lia.
  destruct (Z.eqb_spec n t); [lia|].
  destruct (Z.eqb_spec n (t + 1)) as [E|E]; cbn [snd].
  - split; [lia|]. intros _.
    assert (H2 : locate (scanned n t 1)
                 = (inr t, free_tick t (busy_run 0 (Z.to_nat t) (scanned n t 1)))).
    { rewrite locate_eq by (cbn; lia). unfold locate_spec.
      cbn [scanned free_tick busy_run self size _free_count _busy_count
           _first_available_resource].
      compare_cases; try lia; reflexivity. }
    rewrite H2. cbn [fst snd]. split; [reflexivity|]. split; [reflexivity|].
    rewrite locate_eq by (cbn; lia). unfold locate_spec.
    cbn [scanned free_tick busy_run self size _free_count _busy_count
         _first_available_resource].
    compare_cases; try lia; reflexivity.
  - split; [|lia]. intros _.
    rewrite locate_eq by (cbn; lia). unfold locate_spec.
    cbn [scanned free_tick busy_run self size _free_count _busy_count
         _first_available_resource].
    compare_cases; try lia; split; reflexivity.
Qed.

Lemma locate_again_witness :
  let w1 := snd (locate (fresh 8 5)) in
  let w2 := snd (locate w1) in
  (5 <= 8 - 2 ->
     fst (locate w1) = inl TooManyProbes /\ _free_count (self w2) = 3)
  /\ (5 = 8 - 1 ->
     fst (locate w1) = inr 5
     /\ _free_count (self w2) = 2
     /\ fst (locate w2) = inl TooManyProbes).
Proof. apply (locate_again 8 5). lia. Defined.

(** ** The benchmark *)
















(** The report of the benchmark of the source when draw k is 37 * k. *)
Example main_report_37 :
  fst <$> (match __main__ (fun k => 37 * Z.of_nat k) with
           | inr answer => Some answer
           | inl _ => None
           end)
  = Some {| minimum := 2; maximum := 100; average := true_div 5149 100;
            correctness := true |}.
Proof. vm_compute. reflexivity. Qed.

(** X6. The constructor is called outside the [try]: with at least one
    iteration, a pool size of 0 ends the benchmark on the ValueError of
    [random.randint] and a negative one on NegativeSize, before anything
    is reported. *)
Theorem benchmark_constructor_errors (n iterations : Z) (rng : nat -> Z) :
  1 <= iterations ->
  (n = 0 -> benchmark n iterations rng = inl ValueError)
  /\ (n < 0 -> benchmark n iterations rng = inl NegativeSize).
Proof.
  intros Hi. unfold benchmark.
  destruct (Z.to_nat iterations) as [|m] eqn:Hm; [lia|].
  cbn [seq trials]. split.
  - intros ->. reflexivity.
  - intros Hneg. unfold trial, __init__.
    destruct (Z.ltb_spec n 0); [reflexivity|lia].
Qed.

Lemma benchmark_constructor_errors_witness :
  (0 = 0 -> benchmark 0 ITERATIONS (fun _ => 0) = inl ValueError)
  /\ (0 < 0 -> benchmark 0 ITERATIONS (fun _ => 0) = inl NegativeSize).
Proof.
  apply (benchmark_constructor_errors 0 ITERATIONS). unfold ITERATIONS. lia.
Defined.

(** ** The endpoints chosen by the client *)

(** One pass of the inner loop either finds every endpoint that serves the
    resource already chosen and changes nothing, or appends one endpoint
    that serves it and was not chosen. *)
Lemma find_endpoint_cases (r : Z) (items : list (string * Client.Endpoint))
    (eps : list string) :
  (Client.find_endpoint r items eps = eps
   /\ forall e info, (e, info) ∈ items ->
        r ∈ Client.resource_ids info -> e ∈ eps)
  \/ (exists e info,
        Client.find_endpoint r items eps = eps ++ [e]
        /\ (e, info) ∈ items
        /\ r ∈ Client.resource_ids info
        /\ e ∉ eps).
Proof.
  induction items as [|[e info] items IH]; cbn [Client.find_endpoint].
  - left. split; [reflexivity|]. intros e info Hin. inversion Hin.
  - destruct (bool_decide_reflect (r ∈ Client.resource_ids info)) as [Hr|Hr];
      destruct (bool_decide_reflect (e ∈ eps)) as [He|He]; cbn [andb negb].
    2:{ right. exists e, info. repeat split; [left|exact Hr|exact He]. }
    all: destruct IH as [[Heq Hall]|(e' & info' & Heq & Hin & Hr' & He')].
    all: try (right; exists e', info'; repeat split;
              [exact Heq|right; exact Hin|exact Hr'|exact He']).
    all: left; split; [exact Heq|];
      intros e2 info2 Hin2 Hr2;
      apply elem_of_cons in Hin2 as [[= -> ->]|Hin2];
      [first [exact He|contradiction]|eapply Hall; eassumption].
Qed.

Lemma find_endpoints_spec (registry : list (string * Client.Endpoint))
    (requested : list Z) :
  forall eps,
    NoDup eps ->
    let res := Client.find_endpoints registry requested eps in
    NoDup res
    /\ (exists added, res = eps ++ added
          /\ (length added <= length requested)%nat
          /\ Forall (fun e => exists r, r ∈ requested
                                /\ Client.serves registry e r) added)
    /\ (forall r e, r ∈ requested -> Client.serves registry e r ->
          exists e', e' ∈ res /\ Client.serves registry e' r).
Proof.
  induction requested as [|r requested IH]; intros eps Hnd; cbv zeta.
  - cbn [Client.find_endpoints]. split; [exact Hnd|]. split.
    + exists []. rewrite app_nil_r. repeat split; [cbn; lia|constructor].
    + intros r e Hr. inversion Hr.
  - cbn [Client.find_endpoints].
    destruct (find_endpoint_cases r registry eps)
      as [[Heq Hall]|(e0 & info0 & Heq & Hin0 & Hr0 & He0)]; rewrite Heq.
    + destruct (IH eps Hnd) as (Hnd' & (added & Hres & Hlen & Hadd) & Hcov).
      split; [exact Hnd'|]. split.
      * exists added. repeat split; [exact Hres|cbn; lia|].
        eapply Forall_impl; [exact Hadd|]. cbn.
        intros e (r' & Hr' & Hs). exists r'. split; [right; exact Hr'|exact Hs].
      * intros r' e Hr' Hs. apply elem_of_cons in Hr' as [->|Hr'].
        -- exists e. split; [|exact Hs].
           destruct Hs as (info & Hin & Hr). rewrite Hres.
           apply elem_of_app. left. eapply Hall; eassumption.
        -- eapply Hcov; eassumption.
    + assert (Hnd1 : NoDup (eps ++ [e0])).
      { apply NoDup_app. repeat split; [exact Hnd| |apply NoDup_singleton].
        intros x Hx Hx0. apply list_elem_of_singleton in Hx0 as ->.
        contradiction. }
      destruct (IH (eps ++ [e0]) Hnd1)
        as (Hnd' & (added & Hres & Hlen & Hadd) & Hcov).
      split; [exact Hnd'|]. split.
      * exists (e0 :: added). repeat split.
        -- rewrite Hres, <- app_assoc. reflexivity.
        -- cbn. lia.
        -- constructor.
           ++ exists r. split; [left|]. exists info0. split; assumption.
           ++ eapply Forall_impl; [exact Hadd|]. cbn.
              intros e (r' & Hr' & Hs). exists r'.
              split; [right; exact Hr'|exact Hs].
      * intros r' e Hr' Hs. apply elem_of_cons in Hr' as [->|Hr'].
        -- exists e0. split; [|exists info0; split; assumption].
           rewrite Hres. apply elem_of_app. left.
           apply elem_of_app. right. left.
        -- eapply Hcov; eassumption.
Qed.

(** X7. [_find_endpoints_for_resources] never lists an endpoint twice and
    lists at most one endpoint per requested id, whatever the registry and
    the request (repeated ids included). *)
Theorem find_endpoints_no_duplicates
    (registry : list (string * Client.Endpoint)) (requested : list Z) :
  NoDup (Client._find_endpoints_for_resources registry requested)
  /\ (length (Client._find_endpoints_for_resources registry requested)
      <= length requested)%nat.
Proof.
  unfold Client._find_endpoints_for_resources.
  destruct (find_endpoints_spec registry requested [] (NoDup_nil_2))
    as (Hnd & (added & Hres & Hlen & _) & _).
  split; [exact Hnd|]. rewrite Hres. cbn. exact Hlen.
Qed.

(** X8. Every endpoint [_find_endpoints_for_resources] lists is an item
    of the registry and serves at least one of the requested ids. *)
Theorem find_endpoints_sound
    (registry : list (string * Client.Endpoint)) (requested : list Z) :
  Forall (fun e => exists r, r ∈ requested /\ Client.serves registry e r)
         (Client._find_endpoints_for_resources registry requested).
Proof.
  unfold Client._find_endpoints_for_resources.
  destruct (find_endpoints_spec registry requested [] (NoDup_nil_2))
    as (_ & (added & Hres & _ & Hadd) & _).
  rewrite Hres. exact Hadd.
Qed.

(** X9. Every requested id that some endpoint of the registry serves is
    served by one of the listed endpoints. *)
Theorem find_endpoints_cover
    (registry : list (string * Client.Endpoint)) (requested : list Z)
    (r : Z) (e : string) :
  r ∈ requested ->
  Client.serves registry e r ->
  exists e', e' ∈ Client._find_endpoints_for_resources registry requested
             /\ Client.serves registry e' r.
Proof.
  unfold Client._find_endpoints_for_resources.
  destruct (find_endpoints_spec registry requested [] (NoDup_nil_2))
    as (_ & _ & Hcov).
  apply Hcov.
Qed.

Lemma find_endpoints_cover_witness :
  exists e',
    e' ∈ Client._find_endpoints_for_resources
           [("a"%string, Client.mkEndpoint [1; 2]);
            ("b"%string, Client.mkEndpoint [2; 3])] [2; 3]
    /\ Client.serves [("a"%string, Client.mkEndpoint [1; 2]);
                      ("b"%string, Client.mkEndpoint [2; 3])] e' 3.
Proof.
  apply (find_endpoints_cover
           [("a"%string, Client.mkEndpoint [1; 2]);
            ("b"%string, Client.mkEndpoint [2; 3])] [2; 3] 3 "b"%string).
  - right. left.
  - exists (Client.mkEndpoint [2; 3]). split.
    + right. left.
    + cbn. right. left.
Defined.

(** ** The handlers of the server *)

Lemma with_lock_same (e : App.Endpoint) :
  App.with_lock (App.endpoint_lock e) e = e.
Proof. destruct e. reflexivity. Qed.

Lemma lock_unknown (endpoint : string) (REGISTRY : gmap string App.Endpoint) :
  REGISTRY !! endpoint = None ->
  App.lock endpoint REGISTRY = (App.not_found endpoint, REGISTRY).
Proof. intros H. unfold App.lock. rewrite H. reflexivity. Qed.

Lemma lock_free (endpoint : string) (REGISTRY : gmap string App.Endpoint)
    (e : App.Endpoint) :
  REGISTRY !! endpoint = Some e ->
  App.endpoint_lock e = false ->
  App.lock endpoint REGISTRY
  = ((App.json_empty, 200), <[endpoint := App.with_lock true e]> REGISTRY).
Proof.
  intros H Hl. unfold App.lock, App.Lock.acquire_nonblocking. rewrite H, Hl.
  reflexivity.
Qed.

Lemma lock_held (endpoint : string) (REGISTRY : gmap string App.Endpoint)
    (e : App.Endpoint) :
  REGISTRY !! endpoint = Some e ->
  App.endpoint_lock e = true ->
  App.lock endpoint REGISTRY
  = ((App.json_error ("'" +:+ endpoint +:+ "' is already locked"), 403),
     REGISTRY).
Proof.
  intros H Hl. unfold App.lock, App.Lock.acquire_nonblocking. rewrite H, Hl.
  cbn [negb]. f_equal. rewrite <- Hl.
  change (App.mkEndpoint (App.resources e) (App.endpoint_lock e))
    with (App.with_lock (App.endpoint_lock e) e).
  rewrite with_lock_same. apply insert_id. exact H.
Qed.

Lemma unlock_unknown (endpoint : string) (REGISTRY : gmap string App.Endpoint) :
  REGISTRY !! endpoint = None ->
  App.unlock endpoint REGISTRY = (App.not_found endpoint, REGISTRY).
Proof. intros H. unfold App.unlock. rewrite H. reflexivity. Qed.

Lemma unlock_held (endpoint : string) (REGISTRY : gmap string App.Endpoint)
    (e : App.Endpoint) :
  REGISTRY !! endpoint = Some e ->
  App.endpoint_lock e = true ->
  App.unlock endpoint REGISTRY
  = ((App.json_empty, 200), <[endpoint := App.with_lock false e]> REGISTRY).
Proof.
  intros H Hl. unfold App.unlock, App.Lock.release. rewrite H, Hl.
  reflexivity.
Qed.

Lemma unlock_free (endpoint : string) (REGISTRY : gmap string App.Endpoint)
    (e : App.Endpoint) :
  REGISTRY !! endpoint = Some e ->
  App.endpoint_lock e = false ->
  App.unlock endpoint REGISTRY
  = ((App.json_error ("'" +:+ endpoint +:+ "' is already unlocked"), 403),
     REGISTRY).
Proof.
  intros H Hl. unfold App.unlock, App.Lock.release. rewrite H, Hl.
  reflexivity.
Qed.

(** X10. Locking an endpoint that is in the registry and not locked is
    answered 200, and unlocking it right after is answered 200 and puts the
    registry back exactly as it was. *)
Theorem lock_unlock_round_trip (endpoint : string)
    (REGISTRY : gmap string App.Endpoint) :
  Client.lock_state REGISTRY endpoint false ->
  snd (fst (App.lock endpoint REGISTRY)) = 200
  /\ Client.lock_state (snd (App.lock endpoint REGISTRY)) endpoint true
  /\ App.unlock endpoint (snd (App.lock endpoint REGISTRY))
     = ((App.json_empty, 200), REGISTRY).
Proof.
  intros (e & He & Hl). rewrite (lock_free _ _ e He Hl). cbn [fst snd].
  split; [reflexivity|]. split.
  - exists (App.with_lock true e). split; [apply lookup_insert_eq|reflexivity].
  - rewrite (unlock_held _ _ (App.with_lock true e));
      [|apply lookup_insert_eq|reflexivity].
    f_equal. rewrite insert_insert_eq.
    replace (App.with_lock false (App.with_lock true e)) with e
      by (destruct e; cbn in *; subst; reflexivity).
    apply insert_id. exact He.
Qed.

Lemma lock_unlock_round_trip_witness :
  let REGISTRY : gmap string App.Endpoint :=
    {[ "a"%string := App.mkEndpoint [1; 2] false ]} in
  snd (fst (App.lock "a" REGISTRY)) = 200
  /\ Client.lock_state (snd (App.lock "a" REGISTRY)) "a" true
  /\ App.unlock "a" (snd (App.lock "a" REGISTRY))
     = ((App.json_empty, 200), REGISTRY).
Proof.
  apply (lock_unlock_round_trip "a"
           {[ "a"%string := App.mkEndpoint [1; 2] false ]}).
  exists (App.mkEndpoint [1; 2] false). split; [|reflexivity].
  apply lookup_singleton_eq.
Defined.

(** The three cases of a registry lookup with the state of the lock. *)
Lemma lock_state_cases (REGISTRY : gmap string App.Endpoint) (endpoint : string) :
  REGISTRY !! endpoint = None
  \/ (exists e, REGISTRY !! endpoint = Some e /\ App.endpoint_lock e = false)
  \/ (exists e, REGISTRY !! endpoint = Some e /\ App.endpoint_lock e = true).
Proof.
  destruct (REGISTRY !! endpoint) as [e|]; [|left; reflexivity].
  destruct (App.endpoint_lock e) eqn:Hl; [right; right|right; left];
    exists e; split; [reflexivity|exact Hl|reflexivity|exact Hl].
Qed.

(** X11. A lock is exclusive: once [lock] has answered 200 for an
    endpoint, the next [lock] of it is answered 403 and changes nothing;
    and once [unlock] has answered 200, the next [unlock] of it is
    answered 403 and changes nothing. *)
Theorem lock_is_exclusive (endpoint : string)
    (REGISTRY : gmap string App.Endpoint) :
  (snd (fst (App.lock endpoint REGISTRY)) = 200 ->
     let R1 := snd (App.lock endpoint REGISTRY) in
     snd (fst (App.lock endpoint R1)) = 403
     /\ snd (App.lock endpoint R1) = R1)
  /\ (snd (fst (App.unlock endpoint REGISTRY)) = 200 ->
     let R1 := snd (App.unlock endpoint REGISTRY) in
     snd (fst (App.unlock endpoint R1)) = 403
     /\ snd (App.unlock endpoint R1) = R1).
Proof.
  destruct (lock_state_cases REGISTRY endpoint)
    as [Hn|[(e & He & Hl)|(e & He & Hl)]]; split; cbv zeta.
  - rewrite lock_unknown by exact Hn. discriminate.
  - rewrite unlock_unknown by exact Hn. discriminate.
  - rewrite (lock_free _ _ e He Hl). intros _. cbn [fst snd].
    rewrite (lock_held _ _ (App.with_lock true e));
      [split; reflexivity|apply lookup_insert_eq|reflexivity].
  - rewrite (unlock_free _ _ e He Hl). discriminate.
  - rewrite (lock_held _ _ e He Hl). discriminate.
  - rewrite (unlock_held _ _ e He Hl). intros _. cbn [fst snd].
    rewrite (unlock_free _ _ (App.with_lock false e));
      [split; reflexivity|apply lookup_insert_eq|reflexivity].
Qed.

Lemma lock_is_exclusive_witness :
  let REGISTRY : gmap string App.Endpoint :=
    {[ "a"%string := App.mkEndpoint [1; 2] false ]} in
  let R1 := snd (App.lock "a" REGISTRY) in
  snd (fst (App.lock "a" R1)) = 403 /\ snd (App.lock "a" R1) = R1.
Proof.
  apply (proj1 (lock_is_exclusive "a"
                  {[ "a"%string := App.mkEndpoint [1; 2] false ]})).
  vm_compute. reflexivity.
Defined.

(** X12. [lock] and [unlock] touch nothing but the lock of the endpoint
    they name: the resources of every endpoint and the whole entry of
    every other endpoint are as before, no endpoint appears or disappears,
    and an answer other than 200 leaves the registry unchanged. *)
Theorem handlers_change_one_lock (endpoint : string)
    (REGISTRY : gmap string App.Endpoint) :
  App.only_lock_changed REGISTRY endpoint (App.lock endpoint REGISTRY)
  /\ App.only_lock_changed REGISTRY endpoint (App.unlock endpoint REGISTRY).
Proof.
  assert (Hins : forall e held,
            REGISTRY !! endpoint = Some e ->
            App.only_lock_changed REGISTRY endpoint
              ((App.json_empty, 200),
               <[endpoint := App.with_lock held e]> REGISTRY)).
  { intros e held He. unfold App.only_lock_changed. cbn [fst snd].
    repeat split.
    - intros k. destruct (decide (endpoint = k)) as [<-|Hne].
      + rewrite lookup_insert_eq, He. reflexivity.
      + rewrite lookup_insert_ne by exact Hne. reflexivity.
    - intros k Hne. apply lookup_insert_ne. congruence.
    - intros Hs. contradiction. }
  destruct (lock_state_cases REGISTRY endpoint)
    as [Hn|[(e & He & Hl)|(e & He & Hl)]]; split.
  - rewrite lock_unknown by exact Hn. repeat split.
  - rewrite unlock_unknown by exact Hn. repeat split.
  - rewrite (lock_free _ _ e He Hl). apply Hins, He.
  - rewrite (unlock_free _ _ e He Hl). repeat split.
  - rewrite (lock_held _ _ e He Hl). repeat split.
  - rewrite (unlock_held _ _ e He Hl). apply Hins, He.
Qed.

(** X13. [get] never answers 403: the test on the lock reads the
    attribute [locked] without calling it, so the state of the lock plays
    no part.  For an endpoint of the registry and a resource id it
    exposes, the answer is 200 with the fresh state even when the endpoint
    is not locked. *)
Theorem get_ignores_lock (int : string -> option Z) (uuid_hex : string)
    (endpoint resource_id : string) (REGISTRY : gmap string App.Endpoint) :
  (forall body,
     App.get int uuid_hex endpoint resource_id REGISTRY <> inr (body, 403))
  /\ (forall e id,
        REGISTRY !! endpoint = Some e ->
        int resource_id = Some id ->
        id ∈ App.resources e ->
        App.get int uuid_hex endpoint resource_id REGISTRY
        = inr (App.json_state uuid_hex, 200)).
Proof.
  unfold App.get, App.Lock.locked_attribute_truth, App.not_found. split.
  - intros body. destruct (REGISTRY !! endpoint) as [e|]; [|discriminate].
    destruct (int resource_id) as [id|]; [|discriminate].
    destruct (bool_decide (id ∈ App.resources e)); cbn; discriminate.
  - intros e id -> -> Hid. rewrite bool_decide_eq_true_2 by exact Hid.
    reflexivity.
Qed.

Example get_on_unlocked_endpoint :
  App.get (fun _ => Some 2) "5f"
          "a" "2" {[ "a"%string := App.mkEndpoint [1; 2] false ]}
  = inr (App.json_state "5f", 200).
Proof. reflexivity. Qed.

(** Endpoint "a" serves both ids, yet "b" is listed as well. *)
Example find_endpoints_lists_more_than_needed :
  Client._find_endpoints_for_resources
    [("a"%string, Client.mkEndpoint [1; 2]);
     ("b"%string, Client.mkEndpoint [2])] [1; 2]
  = ["a"%string; "b"%string].
Proof. reflexivity. Qed.

(** ** The client's lock and unlock loops against the server *)

Lemma client_lock_free (endpoint : string) (REGISTRY : gmap string App.Endpoint)
    (e : App.Endpoint) :
  REGISTRY !! endpoint = Some e ->
  App.endpoint_lock e = false ->
  Client._lock_endpoint endpoint REGISTRY
  = (inr tt, <[endpoint := App.with_lock true e]> REGISTRY).
Proof.
  intros He Hl. unfold Client._lock_endpoint.
  rewrite (lock_free _ _ e He Hl). reflexivity.
Qed.

Lemma client_lock_held (endpoint : string) (REGISTRY : gmap string App.Endpoint)
    (e : App.Endpoint) :
  REGISTRY !! endpoint = Some e ->
  App.endpoint_lock e = true ->
  Client._lock_endpoint endpoint REGISTRY
  = (inl Client.EndpointAlreadyLocked, REGISTRY).
Proof.
  intros He Hl. unfold Client._lock_endpoint.
  rewrite (lock_held _ _ e He Hl). reflexivity.
Qed.

Lemma client_lock_unknown (endpoint : string)
    (REGISTRY : gmap string App.Endpoint) :
  REGISTRY !! endpoint = None ->
  Client._lock_endpoint endpoint REGISTRY
  = (inl Client.EndpointNotFound, REGISTRY).
Proof.
  intros Hn. unfold Client._lock_endpoint.
  rewrite (lock_unknown _ _ Hn). reflexivity.
Qed.

Lemma client_unlock_held (endpoint : string)
    (REGISTRY : gmap string App.Endpoint) (e : App.Endpoint) :
  REGISTRY !! endpoint = Some e ->
  App.endpoint_lock e = true ->
  Client._unlock_endpoint endpoint REGISTRY
  = (inr tt, <[endpoint := App.with_lock false e]> REGISTRY).
Proof.
  intros He Hl. unfold Client._unlock_endpoint.
  rewrite (unlock_held _ _ e He Hl). reflexivity.
Qed.

Lemma lock_loop_known (endpoints : list string) :
  forall (REGISTRY : gmap string App.Endpoint) (acc : list string),
    (forall e, e ∈ endpoints -> is_Some (REGISTRY !! e)) ->
    exists newly R1,
      Client.lock_loop endpoints acc REGISTRY = (inr (acc ++ newly), R1)
      /\ NoDup newly
      /\ (forall e, e ∈ newly <->
                    e ∈ endpoints /\ Client.lock_state REGISTRY e false)
      /\ Client.locked_view REGISTRY R1 newly.
Proof.
  induction endpoints as [|x rest IH]; intros REGISTRY acc Hknown.
  - exists [], REGISTRY. cbn. rewrite app_nil_r.
    split; [reflexivity|]. split; [constructor|]. split.
    + intros e. split; [intros H; inversion H|intros [H _]; inversion H].
    + intros k. reflexivity.
  - destruct (Hknown x ltac:(left)) as [ex Hx]. cbn [Client.lock_loop].
    destruct (App.endpoint_lock ex) eqn:Hl.
    + rewrite (client_lock_held _ _ ex Hx Hl).
      destruct (IH REGISTRY acc) as (newly & R1 & Hrun & Hnd & Hiff & Hview).
      { intros e He. apply Hknown. right. exact He. }
      exists newly, R1. split; [exact Hrun|]. split; [exact Hnd|].
      split; [|exact Hview].
      intros e. rewrite Hiff. split.
      * intros [He Hs]. split; [right; exact He|exact Hs].
      * intros [He Hs]. split; [|exact Hs].
        apply elem_of_cons in He as [->|He]; [|exact He].
        destruct Hs as (e' & He' & Hl'). congruence.
    + rewrite (client_lock_free _ _ ex Hx Hl).
      set (R' := <[x := App.with_lock true ex]> REGISTRY).
      destruct (IH R' (acc ++ [x])) as (newly & R1 & Hrun & Hnd & Hiff & Hview).
      { intros e He. unfold R'. destruct (decide (x = e)) as [<-|Hne].
        - rewrite lookup_insert_eq. eauto.
        - rewrite lookup_insert_ne by exact Hne. apply Hknown. right. exact He. }
      assert (Hx' : x ∉ newly).
      { intros Hin. apply Hiff in Hin as [_ (e' & He' & Hl')].
        unfold R' in He'. rewrite lookup_insert_eq in He'.
        injection He' as <-. discriminate Hl'. }
      exists (x :: newly), R1. split.
      { rewrite Hrun, <- app_assoc. reflexivity. }
      split; [constructor; assumption|]. split.
      * intros e. rewrite elem_of_cons, Hiff. unfold Client.lock_state, R'.
        destruct (decide (x = e)) as [<-|Hne].
        -- split; [intros _|intros _; left; reflexivity].
           split; [left|]. exists ex. split; assumption.
        -- rewrite lookup_insert_ne by exact Hne. rewrite elem_of_cons.
           split.
           ++ intros [->|[He Hs]]; [contradiction|].
              split; [right; exact He|exact Hs].
           ++ intros [[->|He] Hs]; [contradiction|].
              right. split; assumption.
      * intros k. rewrite Hview. unfold R'.
        destruct (decide (x = k)) as [<-|Hne].
        -- rewrite decide_False by exact Hx'.
           rewrite decide_True by left.
           rewrite lookup_insert_eq, Hx. reflexivity.
        -- rewrite lookup_insert_ne by exact Hne.
           destruct (decide (k ∈ newly)) as [Hk|Hk].
           ++ rewrite decide_True by (right; exact Hk). reflexivity.
           ++ rewrite decide_False; [reflexivity|].
              intros Hin. apply elem_of_cons in Hin as [->|Hin]; contradiction.
Qed.

Lemma unlock_loop_held (l : list string) :
  forall (R : gmap string App.Endpoint),
    NoDup l ->
    (forall e, e ∈ l -> Client.lock_state R e true) ->
    exists R',
      Client._unlock_endpoints l R = (inr tt, R')
      /\ forall k, R' !! k = if decide (k ∈ l)
                             then App.with_lock false <$> R !! k
                             else R !! k.
Proof.
  induction l as [|x l IH]; intros R Hnd Hheld.
  - exists R. split; [reflexivity|]. intros k. reflexivity.
  - apply NoDup_cons in Hnd as [Hx Hnd].
    destruct (Hheld x ltac:(left)) as (ex & Hex & Hl).
    cbn [Client._unlock_endpoints]. rewrite (client_unlock_held _ _ ex Hex Hl).
    set (R2 := <[x := App.with_lock false ex]> R).
    destruct (IH R2 Hnd) as (R' & Hrun & Hview).
    { intros e He. destruct (Hheld e ltac:(right; exact He)) as (e' & He' & Hl').
      exists e'. split; [|exact Hl']. unfold R2.
      rewrite lookup_insert_ne; [exact He'|]. intros ->. contradiction. }
    exists R'. split; [exact Hrun|].
    intros k. rewrite Hview. unfold R2.
    destruct (decide (x = k)) as [<-|Hne].
    + rewrite decide_False by exact Hx. rewrite decide_True by left.
      rewrite lookup_insert_eq, Hex. reflexivity.
    + rewrite lookup_insert_ne by exact Hne.
      destruct (decide (k ∈ l)) as [Hk|Hk].
      * rewrite decide_True by (right; exact Hk). reflexivity.
      * rewrite decide_False; [reflexivity|].
        intros Hin. apply elem_of_cons in Hin as [->|Hin]; contradiction.
Qed.

Lemma locked_view_held (REGISTRY R1 : gmap string App.Endpoint)
    (endpoints newly : list string) :
  (forall e, e ∈ endpoints -> is_Some (REGISTRY !! e)) ->
  (forall e, e ∈ newly <->
             e ∈ endpoints /\ Client.lock_state REGISTRY e false) ->
  Client.locked_view REGISTRY R1 newly ->
  (forall e, e ∈ endpoints -> Client.lock_state R1 e true)
  /\ (forall k, k ∉ endpoints -> R1 !! k = REGISTRY !! k).
Proof.
  intros Hknown Hiff Hview. split.
  - intros e He. destruct (Hknown e He) as [ee Hee].
    unfold Client.lock_state. rewrite Hview.
    destruct (decide (e ∈ newly)) as [Hin|Hout].
    + rewrite Hee. exists (App.with_lock true ee). split; reflexivity.
    + exists ee. split; [exact Hee|].
      destruct (App.endpoint_lock ee) eqn:Hl; [reflexivity|].
      exfalso. apply Hout, Hiff. split; [exact He|].
      exists ee. split; assumption.
  - intros k Hk. rewrite Hview. rewrite decide_False; [reflexivity|].
    intros Hin. apply Hiff in Hin as [Hin _]. contradiction.
Qed.

(** X14. When every endpoint of the list is in the registry,
    [_lock_endpoints] returns, without repetition, exactly the endpoints
    of the list that were not locked, leaves every endpoint of the list
    locked and every other entry untouched; and [_unlock_endpoints] on the
    list it returned puts the registry back exactly as it was: locks held
    before the call are still held, nothing else is. *)
Theorem lock_unlock_endpoints_round_trip (endpoints : list string)
    (REGISTRY : gmap string App.Endpoint) :
  (forall e, e ∈ endpoints -> is_Some (REGISTRY !! e)) ->
  exists locked R1,
    Client._lock_endpoints endpoints REGISTRY = (inr locked, R1)
    /\ NoDup locked
    /\ (forall e, e ∈ locked <->
                  e ∈ endpoints /\ Client.lock_state REGISTRY e false)
    /\ (forall e, e ∈ endpoints -> Client.lock_state R1 e true)
    /\ (forall k, k ∉ endpoints -> R1 !! k = REGISTRY !! k)
    /\ Client._unlock_endpoints locked R1 = (inr tt, REGISTRY).
Proof.
  intros Hknown. unfold Client._lock_endpoints.
  destruct (lock_loop_known endpoints REGISTRY [] Hknown)
    as (locked & R1 & Hrun & Hnd & Hiff & Hview).
  destruct (locked_view_held _ _ _ _ Hknown Hiff Hview) as [Hheld Hother].
  exists locked, R1. cbn [app] in Hrun.
  split; [exact Hrun|]. split; [exact Hnd|]. split; [exact Hiff|].
  split; [exact Hheld|]. split; [exact Hother|].
  destruct (unlock_loop_held locked R1 Hnd) as (R' & Hun & Hview').
  { intros e He. apply Hheld. apply Hiff in He as [He _]. exact He. }
  rewrite Hun. f_equal. apply map_eq. intros k.
  rewrite Hview', Hview.
  destruct (decide (k ∈ locked)) as [Hk|Hk]; [|reflexivity].
  apply Hiff in Hk as [_ (e & He & Hl)]. rewrite He. cbn.
  f_equal. destruct e. cbn in *. subst. reflexivity.
Qed.

Lemma lock_unlock_endpoints_round_trip_witness :
  let REGISTRY : gmap string App.Endpoint :=
    <[ "a"%string := App.mkEndpoint [1; 2] false ]>
      {[ "b"%string := App.mkEndpoint [2] true ]} in
  let endpoints := ["a"%string; "b"%string; "a"%string] in
  exists locked R1,
    Client._lock_endpoints endpoints REGISTRY = (inr locked, R1)
    /\ NoDup locked
    /\ (forall e, e ∈ locked <->
                  e ∈ endpoints /\ Client.lock_state REGISTRY e false)
    /\ (forall e, e ∈ endpoints -> Client.lock_state R1 e true)
    /\ (forall k, k ∉ endpoints -> R1 !! k = REGISTRY !! k)
    /\ Client._unlock_endpoints locked R1 = (inr tt, REGISTRY).
Proof.
  apply (lock_unlock_endpoints_round_trip
           ["a"%string; "b"%string; "a"%string]
           (<[ "a"%string := App.mkEndpoint [1; 2] false ]>
              {[ "b"%string := App.mkEndpoint [2] true ]})).
  intros e He.
  apply elem_of_cons in He as [->|He]; [vm_compute; eauto|].
  apply elem_of_cons in He as [->|He]; [vm_compute; eauto|].
  apply list_elem_of_singleton in He as ->. vm_compute. eauto.
Defined.

Lemma lock_loop_app (pre rest : list string) :
  forall (acc : list string) (REGISTRY : gmap string App.Endpoint),
    Client.lock_loop (pre ++ rest) acc REGISTRY =
      match Client.lock_loop pre acc REGISTRY with
      | (inr acc', R1) => Client.lock_loop rest acc' R1
      | (inl e, R1) => (inl e, R1)
      end.
Proof.
  induction pre as [|x pre IH]; intros acc REGISTRY.
  - cbn. destruct rest; reflexivity.
  - cbn [app Client.lock_loop].
    destruct (Client._lock_endpoint x REGISTRY) as [[[]|[]] R']; auto.
Qed.

(** X15. An endpoint that is not in the registry makes [_lock_endpoints]
    raise EndpointNotFound, and nothing is released on the way out: every
    endpoint listed before it stays locked on the server, the rest of the
    registry is untouched. *)
Theorem lock_endpoints_unknown (pre post : list string) (bad : string)
    (REGISTRY : gmap string App.Endpoint) :
  (forall e, e ∈ pre -> is_Some (REGISTRY !! e)) ->
  REGISTRY !! bad = None ->
  exists R1,
    Client._lock_endpoints (pre ++ bad :: post) REGISTRY
    = (inl Client.EndpointNotFound, R1)
    /\ (forall e, e ∈ pre -> Client.lock_state R1 e true)
    /\ (forall k, k ∉ pre -> R1 !! k = REGISTRY !! k).
Proof.
  intros Hknown Hbad. unfold Client._lock_endpoints. rewrite lock_loop_app.
  destruct (lock_loop_known pre REGISTRY [] Hknown)
    as (locked & R1 & Hrun & Hnd & Hiff & Hview).
  destruct (locked_view_held _ _ _ _ Hknown Hiff Hview) as [Hheld Hother].
  rewrite Hrun. cbn [Client.lock_loop].
  rewrite client_lock_unknown.
  - exists R1. repeat split; assumption.
  - rewrite Hview, Hbad. destruct (decide (bad ∈ locked)); reflexivity.
Qed.

Lemma lock_endpoints_unknown_witness :
  let REGISTRY : gmap string App.Endpoint :=
    {[ "a"%string := App.mkEndpoint [1; 2] false ]} in
  exists R1,
    Client._lock_endpoints (["a"%string] ++ "zz"%string :: []) REGISTRY
    = (inl Client.EndpointNotFound, R1)
    /\ (forall e, e ∈ ["a"%string] -> Client.lock_state R1 e true)
    /\ (forall k, k ∉ ["a"%string] -> R1 !! k = REGISTRY !! k).
Proof.
  apply (lock_endpoints_unknown ["a"%string] [] "zz"
           {[ "a"%string := App.mkEndpoint [1; 2] false ]}).
  - intros e He. apply list_elem_of_singleton in He as ->. vm_compute. eauto.
  - vm_compute. reflexivity.
Defined.
